(** * Recursive DNS resolver (dns_resolve.py): embedding and verified properties

    The resolver walks the DNS delegation hierarchy from the root servers.
    The Python functions [ipv4_addr], [lookup], [recursive_resolver],
    [collect_results], [print_results] and [main] are embedded below as
    functions over an explicit state (the two module-level dictionaries and
    the history of queries sent), with the UDP transport as a parameter. *)

From Stdlib Require Import ZArith NArith String Ascii DecimalString.
From stdpp Require Import base option list strings gmap.

Local Open Scope string_scope.
Local Open Scope Z_scope.
Local Open Scope list_scope.

(** ** Python string primitives used by the program *)

Module PyStr.

(** [s.split(sep)] for a one-character separator: every occurrence cuts,
    empty pieces are kept, and the result is never empty. *)
Fixpoint split_on (sep : ascii) (s : string) : list string :=
  match s with
  | EmptyString => [EmptyString]
  | String c rest =>
      if Ascii.eqb c sep then EmptyString :: split_on sep rest
      else match split_on sep rest with
           | [] => [String c EmptyString]
           | piece :: pieces => String c piece :: pieces
           end
  end.

(** The characters [str.isspace] accepts in ASCII text. *)
Definition is_space (c : ascii) : bool :=
  let n := nat_of_ascii c in
  (((9 <=? n) && (n <=? 13)) || ((28 <=? n) && (n <=? 32)))%nat.

(** [s.split()] with no argument: runs of whitespace separate the pieces
    and no empty piece is produced.  [cur] is the piece being read, kept
    in reverse. *)
Fixpoint split_ws_aux (s : string) (cur : list ascii) : list string :=
  match s with
  | EmptyString =>
      match cur with
      | [] => []
      | _ => [string_of_list_ascii (rev cur)]
      end
  | String c rest =>
      if is_space c then
        match cur with
        | [] => split_ws_aux rest []
        | _ => string_of_list_ascii (rev cur) :: split_ws_aux rest []
        end
      else split_ws_aux rest (c :: cur)
  end.

Definition split_ws (s : string) : list string := split_ws_aux s [].

(** [s[:-1]]: the string without its last character ([""] stays [""]). *)
Fixpoint drop_last (s : string) : string :=
  match s with
  | EmptyString => EmptyString
  | String c EmptyString => EmptyString
  | String c rest => String c (drop_last rest)
  end.

(** [l[-2]] and [l[-1]]: [None] stands for Python's IndexError. *)
Definition index_m2 {A} (l : list A) : option A :=
  match rev l with
  | _ :: x :: _ => Some x
  | _ => None
  end.

Definition index_m1 {A} (l : list A) : option A :=
  match rev l with
  | x :: _ => Some x
  | [] => None
  end.

(** [sep.join(pieces)] *)
Fixpoint join (sep : string) (pieces : list string) : string :=
  match pieces with
  | [] => EmptyString
  | [p] => p
  | p :: rest => p +:+ sep +:+ join sep rest
  end.

Definition ends_with_dot (s : string) : bool :=
  match index_m1 (list_ascii_of_string s) with
  | Some c => Ascii.eqb c "."
  | None => false
  end.

Definition newline : string := String (ascii_of_nat 10) EmptyString.

(** [str(n)] for a non-negative integer. *)
Definition decimal (n : N) : string := NilEmpty.string_of_uint (N.to_uint n).

End PyStr.

(** ** DNS data as dnspython presents it to the program *)

(** Record type numbers the program compares against. *)
Definition A_TYPE : Z := 1.
Definition NS_TYPE : Z := 2.
Definition CNAME_TYPE : Z := 5.
Definition MX_TYPE : Z := 15.
Definition TXT_TYPE : Z := 16.
Definition AAAA_TYPE : Z := 28.

(** One rdata: its [rdtype], its text [str(rdata)], and the two fields the
    program reads from MX rdata. *)
Record Rdata := mkRdata {
  rdtype : Z;
  rd_text : string;
  preference : N;
  exchange : string
}.

(** One RRset: owner name (absolute text, as [str(rrset.name)]), ttl, class,
    type, and the rdata it iterates over. *)
Record RRset := mkRRset {
  rr_name : string;
  rr_ttl : N;
  rr_class : Z;
  rr_type : Z;
  rr_items : list Rdata
}.

(** A response: three ordered sections of RRsets. *)
Record Message := mkMessage {
  answer : list RRset;
  authority : list RRset;
  additional : list RRset
}.

(** dnspython keeps one type per RRset: every member has the set's type. *)
Definition wf_rrset (rs : RRset) : bool :=
  forallb (fun rd => rdtype rd =? rr_type rs) (rr_items rs).

Definition wf_message (m : Message) : bool :=
  forallb wf_rrset (answer m) && forallb wf_rrset (authority m)
  && forallb wf_rrset (additional m).

(** The text of record types, classes and RRsets as the dnspython library
    renders it ([dns.rdatatype.to_text], [dns.rdataclass.to_text],
    [RRset.__str__]): an RRset reads "owner ttl class type data", one line
    per rdata. *)
Definition rdatatype_to_text (t : Z) : string :=
  if t =? 1 then "A"
  else if t =? 2 then "NS"
  else if t =? 5 then "CNAME"
  else if t =? 6 then "SOA"
  else if t =? 12 then "PTR"
  else if t =? 15 then "MX"
  else if t =? 16 then "TXT"
  else if t =? 28 then "AAAA"
  else if t =? 46 then "RRSIG"
  else "TYPE" +:+ PyStr.decimal (Z.to_N t).

Definition rdataclass_to_text (c : Z) : string :=
  if c =? 1 then "IN"
  else if c =? 3 then "CH"
  else if c =? 4 then "HS"
  else "CLASS" +:+ PyStr.decimal (Z.to_N c).

Definition rrset_line (rs : RRset) (rd : Rdata) : string :=
  rr_name rs +:+ " " +:+ PyStr.decimal (rr_ttl rs) +:+ " "
  +:+ rdataclass_to_text (rr_class rs) +:+ " "
  +:+ rdatatype_to_text (rr_type rs) +:+ " " +:+ rd_text rd.

Definition rrset_to_text (rs : RRset) : string :=
  match rr_items rs with
  | [] => rr_name rs +:+ " " +:+ rdataclass_to_text (rr_class rs) +:+ " "
          +:+ rdatatype_to_text (rr_type rs)
  | _ => PyStr.join PyStr.newline (map (rrset_line rs) (rr_items rs))
  end.

(** [str(dns.name.from_text(name))] for text that dnspython accepts: the
    root origin makes the name absolute, so its text always ends with a
    dot.  Text that dnspython rejects (an empty or over-long label) is
    outside this model. *)
Definition name_from_text (name : string) : string :=
  if PyStr.ends_with_dot name then name else name +:+ ".".

Definition ROOT_SERVERS : list string :=
  ["198.41.0.4"; "192.228.79.201"; "192.33.4.12"; "199.7.91.13";
   "192.203.230.10"; "192.5.5.241"; "192.112.36.4"; "198.97.190.53";
   "192.36.148.17"; "192.58.128.30"; "193.0.14.129"; "199.7.83.42";
   "202.12.27.33"].

(** Constructors for the common rdata shapes. *)
Definition rdata (t : Z) (text : string) : Rdata := mkRdata t text 0%N "".
Definition mx_rdata (pref : N) (exch : string) : Rdata :=
  mkRdata MX_TYPE (PyStr.decimal pref +:+ " " +:+ exch) pref exch.
Definition rrset (owner : string) (t : Z) (texts : list string) : RRset :=
  mkRRset owner 3600%N 1 t (map (rdata t) texts).

(** ** State, outcomes and the transport *)

(** One call of [dns.query.udp]: the query name (as [make_query] parses the
    target), the query type and the server addressed. *)
Record Query := mkQuery {
  q_name : string;
  q_type : Z;
  q_server : string
}.

(** The resolver's mutable world: the module-level [dict_cache] and the
    queries sent so far, oldest first. *)
Record State := mkState {
  dict_cache : gmap string (list string);
  sent : list Query
}.

Inductive Exn := IndexError.

(** What a call does: return a value, raise, or exhaust the recursion
    budget of the model (the source has no bound on its recursion). *)
Inductive Outcome (S A : Type) :=
| Returns (a : A) (st : S)
| Raises (e : Exn) (st : S)
| Diverges.
Arguments Returns {S A} a st.
Arguments Raises {S A} e st.
Arguments Diverges {S A}.

Definition M (A : Type) : Type := State -> Outcome State A.

Definition ret {A} (a : A) : M A := fun st => Returns a st.

Definition bind {A B} (m : M A) (k : A -> M B) : M B :=
  fun st =>
    match m st with
    | Returns a st' => k a st'
    | Raises e st' => Raises e st'
    | Diverges => Diverges
    end.

Notation "x <- m ;; k" := (bind m (fun x => k))
  (at level 100, m at next level, right associativity).

(** The label under which both [lookup] ([tld[-2]]) and [ipv4_addr]
    ([domain[-2]]) index [dict_cache]: the second-to-last piece of the text
    cut at dots.  [None] is the IndexError of a text without a dot. *)
Definition cache_key (text : string) : option string :=
  PyStr.index_m2 (PyStr.split_on "." text).

(** ** ipv4_addr *)

(** The loop [for row in ipv4_address] of [ipv4_addr]; [None] is the
    IndexError raised by [domain[-2]]. *)
Fixpoint ipv4_rows (ipv4_address rows ipv4_list : list string)
    (cache : gmap string (list string))
    : option (list string * gmap string (list string)) :=
  match rows with
  | [] => Some (ipv4_list, cache)
  | row :: rows' =>
      if String.eqb row "A" then
        match head ipv4_address, PyStr.index_m1 ipv4_address with
        | Some owner, Some addr =>
            match cache_key owner with
            | None => None
            | Some key =>
                match cache !! key with
                | None =>
                    ipv4_rows ipv4_address rows' [addr] (<[key := [addr]]> cache)
                | Some stored =>
                    if bool_decide (addr ∈ stored)
                    then ipv4_rows ipv4_address rows' [addr] cache
                    else ipv4_rows ipv4_address rows' [addr]
                           (<[key := stored ++ [addr]]> cache)
                end
            end
        | _, _ => None
        end
      else ipv4_rows ipv4_address rows' ipv4_list cache
  end.

Definition ipv4_addr (s : string) : M (list string) :=
  fun st =>
    let ipv4_address := PyStr.split_ws s in
    match ipv4_rows ipv4_address ipv4_address [] (dict_cache st) with
    | Some (ipv4_list, cache) => Returns ipv4_list (mkState cache (sent st))
    | None => Raises IndexError st
    end.

(** ** recursive_resolver *)

(** The scan of the answer section (lines 148-155): the first rdata of the
    requested type returns the response, an earlier CNAME restarts from the
    root, and every rdata visited overwrites [target_name]. *)
Inductive AnswerScan :=
| ScanMatch
| ScanAlias (target_name : string)
| ScanNone (target_name : string).

Fixpoint scan_answer (qtype : Z) (rds : list Rdata) (target_name : string)
    : AnswerScan :=
  match rds with
  | [] => ScanNone target_name
  | each_answer :: rest =>
      let target_name := PyStr.drop_last (rd_text each_answer) in
      if rdtype each_answer =? qtype then ScanMatch
      else if rdtype each_answer =? 5 then ScanAlias target_name
      else scan_answer qtype rest target_name
  end.

(** All rdata of a section in iteration order
    ([for answers in section: for answer in answers]). *)
Definition records (section : list RRset) : list Rdata :=
  concat (map rr_items section).

(** [for each_auth in auth_list]: [None] is the [return None] at an SOA. *)
Fixpoint scan_auth (rds : list Rdata) (ns_list : list string)
    : option (list string) :=
  match rds with
  | [] => Some ns_list
  | each_auth :: rest =>
      if rdtype each_auth =? 6 then None
      else scan_auth rest (ns_list ++ [PyStr.drop_last (rd_text each_auth)])
  end.

(** How a loop nested in the function body ends: with a [return], or by
    running out of elements. *)
Inductive Flow :=
| Return (v : option Message)
| FallThrough.

Section Resolver.

(** [dns.query.udp]: the response to a query given the queries sent before
    it, [None] when the call raises (timeout, unreachable, malformed). *)
Variable udp : list Query -> Query -> option Message.

(** The recursive call, for the loops below. *)
Variable rec : string -> Z -> list string -> M (option Message).

(** [for record in response.additional] (lines 159-160). *)
Fixpoint glue_addresses (section : list RRset) (address_list : list string)
    : M (list string) :=
  match section with
  | [] => ret address_list
  | record :: rest =>
      found <- ipv4_addr (rrset_to_text record) ;;
      glue_addresses rest (address_list ++ found)
  end.

(** [for each_answer in ns_result.answer] (lines 172-176). *)
Fixpoint try_addresses (target_name : string) (qtype : Z)
    (section : list RRset) : M Flow :=
  match section with
  | [] => ret FallThrough
  | each_answer :: rest =>
      ns_address <- ipv4_addr (rrset_to_text each_answer) ;;
      ns_next_res <- rec target_name qtype ns_address ;;
      match ns_next_res with
      | Some r => ret (Return (Some r))
      | None => try_addresses target_name qtype rest
      end
  end.

(** [for each_name in ns_list] (lines 169-176). *)
Fixpoint chase_names (target_name : string) (qtype : Z)
    (ns_list : list string) : M Flow :=
  match ns_list with
  | [] => ret FallThrough
  | each_name :: rest =>
      ns_result <- rec each_name 1 ROOT_SERVERS ;;
      match ns_result with
      | Some m =>
          fl <- try_addresses target_name qtype (answer m) ;;
          match fl with
          | Return v => ret (Return v)
          | FallThrough => chase_names target_name qtype rest
          end
      | None => chase_names target_name qtype rest
      end
  end.

(** [for auth_list in response.authority] (lines 164-176): the chase of
    the names gathered so far runs inside this loop, after each RRset. *)
Fixpoint walk_authority (target_name : string) (qtype : Z)
    (section : list RRset) (ns_list : list string) : M Flow :=
  match section with
  | [] => ret FallThrough
  | auth_list :: rest =>
      match scan_auth (rr_items auth_list) ns_list with
      | None => ret (Return None)
      | Some ns_list =>
          fl <- chase_names target_name qtype ns_list ;;
          match fl with
          | Return v => ret (Return v)
          | FallThrough => walk_authority target_name qtype rest ns_list
          end
      end
  end.

Definition record_query (q : Query) (st : State) : State :=
  mkState (dict_cache st) (sent st ++ [q]).

(** [for each_server in servers] (lines 141-176).  [qname] is the name in
    [outbound_query], fixed before the loop; [target_name] is the
    variable the answer scan overwrites. *)
Fixpoint try_servers (qname : string) (qtype : Z) (target_name : string)
    (servers : list string) : M (option Message) :=
  match servers with
  | [] => ret None
  | each_server :: rest =>
      fun st =>
        let q := mkQuery qname qtype each_server in
        let st1 := record_query q st in
        match udp (sent st) q with
        | None => try_servers qname qtype target_name rest st1
        | Some response =>
            if (0 <? length (answer response))%nat then
              match scan_answer qtype (records (answer response)) target_name with
              | ScanMatch => Returns (Some response) st1
              | ScanAlias target_name => rec target_name qtype ROOT_SERVERS st1
              | ScanNone target_name =>
                  try_servers qname qtype target_name rest st1
              end
            else if (0 <? length (additional response))%nat then
              (address_list <- glue_addresses (additional response) [] ;;
               rec target_name qtype address_list) st1
            else
              (fl <- walk_authority target_name qtype (authority response) [] ;;
               match fl with
               | Return v => ret v
               | FallThrough => try_servers qname qtype target_name rest
               end) st1
        end
  end.

Definition resolver_body (target_name : string) (qtype : Z)
    (servers : list string) : M (option Message) :=
  match servers with
  | [] => ret None
  | _ => try_servers (name_from_text target_name) qtype target_name servers
  end.

End Resolver.

(** [recursive_resolver]: [fuel] bounds the depth of recursive calls. *)
Fixpoint recursive_resolver (udp : list Query -> Query -> option Message)
    (fuel : nat) (target_name : string) (qtype : Z) (servers : list string)
    : M (option Message) :=
  match fuel with
  | O => fun _ => Diverges
  | S fuel' =>
      resolver_body udp (recursive_resolver udp fuel') target_name qtype servers
  end.

(** ** lookup *)

(** The candidate list [lookup] hands to the resolver: the servers cached
    under the name's key, else the root servers; [None] is the IndexError
    of [tld[-2]]. *)
Definition lookup_servers (target_name : string)
    (cache : gmap string (list string)) : option (list string) :=
  match cache_key target_name with
  | None => None
  | Some domain1 =>
      match cache !! domain1 with
      | Some cache_ip_address => Some cache_ip_address
      | None => Some ROOT_SERVERS
      end
  end.

Definition lookup (udp : list Query -> Query -> option Message) (fuel : nat)
    (target_name : string) (qtype : Z) : M (option Message) :=
  fun st =>
    match lookup_servers target_name (dict_cache st) with
    | None => Raises IndexError st
    | Some servers => recursive_resolver udp fuel target_name qtype servers st
    end.

(** ** collect_results *)

Record CnameEntry := mkCname { cname_name : Rdata; cname_alias : string }.
Record AddrEntry := mkAddr { addr_name : string; addr_address : string }.
Record MxEntry := mkMx {
  mx_name : string;
  mx_preference : N;
  mx_exchange : string
}.

(** The dictionary [full_response], with its four fixed keys. *)
Record RecordSet := mkRecordSet {
  rs_CNAME : list CnameEntry;
  rs_A : list AddrEntry;
  rs_AAAA : list AddrEntry;
  rs_MX : list MxEntry
}.

(** Lines 52-58: every rdata of the answer is appended, none is filtered. *)
Definition cname_entries (name : string) (response : option Message)
    : list CnameEntry :=
  match response with
  | None => []
  | Some m => map (fun answer => mkCname answer name) (records (answer m))
  end.

(** Line 58: each rdata visited overwrites [target_name]. *)
Definition cname_target (target_name : string) (response : option Message)
    : string :=
  match response with
  | None => target_name
  | Some m =>
      fold_left (fun _ answer => PyStr.drop_last (rd_text answer))
        (records (answer m)) target_name
  end.

(** Lines 63-68 and 73-79: rdata of type [t], with the owner of their RRset. *)
Definition addr_entries (t : Z) (response : option Message) : list AddrEntry :=
  match response with
  | None => []
  | Some m =>
      flat_map (fun answers =>
        map (fun answer => mkAddr (rr_name answers) (rd_text answer))
          (filter (fun answer => rdtype answer = t) (rr_items answers)))
        (answer m)
  end.

(** Lines 84-91. *)
Definition mx_entries (response : option Message) : list MxEntry :=
  match response with
  | None => []
  | Some m =>
      flat_map (fun answers =>
        map (fun answer =>
               mkMx (rr_name answers) (preference answer) (exchange answer))
          (filter (fun answer => rdtype answer = 15) (rr_items answers)))
        (answer m)
  end.

Definition collect_results (udp : list Query -> Query -> option Message)
    (fuel : nat) (name : string) : M RecordSet :=
  let target_name := name_from_text name in
  response <- lookup udp fuel target_name 5 ;;
  let cnames := cname_entries name response in
  let target_name := cname_target target_name response in
  response <- lookup udp fuel target_name 1 ;;
  let arecords := addr_entries 1 response in
  response <- lookup udp fuel target_name 28 ;;
  let aaaarecords := addr_entries 28 response in
  response <- lookup udp fuel target_name 15 ;;
  let mxrecords := mx_entries response in
  ret (mkRecordSet cnames arecords aaaarecords mxrecords).

(** ** print_results and main *)

(** The lines [print_results] writes, in the order of [FORMATS]. *)
Definition print_results (results : RecordSet) : list string :=
  map (fun r => cname_alias r +:+ " is an alias for " +:+ rd_text (cname_name r))
    (rs_CNAME results)
  ++ map (fun r => addr_name r +:+ " has address " +:+ addr_address r)
       (rs_A results)
  ++ map (fun r => addr_name r +:+ " has IPv6 address " +:+ addr_address r)
       (rs_AAAA results)
  ++ map (fun r => mx_name r +:+ " mail is handled by "
                   +:+ PyStr.decimal (mx_preference r) +:+ " " +:+ mx_exchange r)
       (rs_MX results).

(** The whole process: the resolver's state, [domain_cache] and the lines
    printed so far. *)
Record Process := mkProcess {
  resolver : State;
  domain_cache : gmap string RecordSet;
  stdout : list string
}.

(** The body shared by the three loops of [main]: print the stored result,
    or collect, store and print. *)
Definition serve (udp : list Query -> Query -> option Message) (fuel : nat)
    (a_domain_name : string) (p : Process) : Outcome Process RecordSet :=
  match domain_cache p !! a_domain_name with
  | Some results =>
      Returns results
        (mkProcess (resolver p) (domain_cache p)
           (stdout p ++ print_results results))
  | None =>
      match collect_results udp fuel a_domain_name (resolver p) with
      | Returns results st =>
          Returns results
            (mkProcess st (<[a_domain_name := results]> (domain_cache p))
               (stdout p ++ print_results results))
      | Raises e st => Raises e (mkProcess st (domain_cache p) (stdout p))
      | Diverges => Diverges
      end
  end.

Fixpoint serve_all (udp : list Query -> Query -> option Message) (fuel : nat)
    (names : list string) (p : Process) : Outcome Process unit :=
  match names with
  | [] => Returns tt p
  | a_domain_name :: rest =>
      match serve udp fuel a_domain_name p with
      | Returns _ p' => serve_all udp fuel rest p'
      | Raises e p' => Raises e p'
      | Diverges => Diverges
      end
  end.

(** Lines 211-213: the arguments without repetitions, first occurrences
    kept in order. *)
Fixpoint dedup_args (names argument_list : list string) : list string :=
  match names with
  | [] => argument_list
  | x :: rest =>
      if bool_decide (x ∈ argument_list) then dedup_args rest argument_list
      else dedup_args rest (argument_list ++ [x])
  end.

Definition main (udp : list Query -> Query -> option Message) (fuel : nat)
    (names : list string) (p : Process) : Outcome Process unit :=
  if (length names <=? 1)%nat then serve_all udp fuel names p
  else if (1 <? length names)%nat then
    serve_all udp fuel (dedup_args names []) p
  else serve_all udp fuel names p.

Definition initial_state : State := mkState ∅ [].
Definition initial_process : Process := mkProcess initial_state ∅ [].

(** ** Names as label sequences, and what is stored under a key *)

(** A label holds no dot. *)
Fixpoint no_dot (label : string) : bool :=
  match label with
  | EmptyString => true
  | String c rest => negb (Ascii.eqb c ".") && no_dot rest
  end.

(** The text of a name given by its labels: absolute (dot-terminated, as
    dnspython prints names) and relative (as [str(rdata)[:-1]] leaves an
    alias target). *)
Definition relative_text (labels : list string) : string :=
  PyStr.join "." labels.
Definition absolute_text (labels : list string) : string :=
  PyStr.join "." labels +:+ ".".

(** The effect of one discovered address on [dict_cache] (lines 111-116). *)
Definition remember_servers (key addr : string)
    (cache : gmap string (list string)) : gmap string (list string) :=
  match cache !! key with
  | None => <[key := [addr]]> cache
  | Some stored =>
      if bool_decide (addr ∈ stored) then cache
      else <[key := stored ++ [addr]]> cache
  end.

(** The cache only grows: every stored list is kept as a prefix. *)
Definition cache_le (c1 c2 : gmap string (list string)) : Prop :=
  ∀ k l1, c1 !! k = Some l1 → ∃ l2, c2 !! k = Some (l1 ++ l2).

(** Every stored list is non-empty. *)
Definition cache_nonempty (c : gmap string (list string)) : Prop :=
  ∀ k l, c !! k = Some l → l ≠ [].

(** ** Notions used in the statements *)

(** Whether some row is the word [A]. *)
Definition has_A (rows : list string) : bool :=
  existsb (λ row, String.eqb row "A") rows.

(** What [ipv4_addr] computes from the words of its argument: with no word
    [A], nothing; otherwise the last word, remembered under the key of the
    first word. *)
Definition ipv4_effect (ipv4_address : list string)
    (cache : gmap string (list string))
    : option (list string * gmap string (list string)) :=
  if has_A ipv4_address then
    match head ipv4_address, PyStr.index_m1 ipv4_address with
    | Some owner, Some addr =>
        match cache_key owner with
        | None => None
        | Some key => Some ([addr], remember_servers key addr cache)
        end
    | _, _ => None
    end
  else Some ([], cache).

(** From one state to a later one: stored server lists are only extended,
    they stay non-empty, and the history of queries is only extended. *)
Definition state_le (st st' : State) : Prop :=
  cache_le (dict_cache st) (dict_cache st')
  ∧ (cache_nonempty (dict_cache st) → cache_nonempty (dict_cache st'))
  ∧ ∃ more, sent st' = sent st ++ more.

(** A computation that, whenever it ends, leaves a later state. *)
Definition grows {A} (m : M A) : Prop :=
  ∀ st,
    match m st with
    | Returns _ st' | Raises _ st' => state_le st st'
    | Diverges => True
    end.

(** A word holds no whitespace (dnspython escapes it in names). *)
Fixpoint no_space (s : string) : bool :=
  match s with
  | EmptyString => true
  | String c rest => negb (PyStr.is_space c) && no_space rest
  end.

(** No rdata of [rds] is of the requested type or a CNAME. *)
Definition unusable (qtype : Z) (rds : list Rdata) : Prop :=
  Forall (λ rd, rdtype rd ≠ qtype ∧ rdtype rd ≠ 5) rds.

(** The address [ipv4_addr] returns for a text, whatever the cache holds. *)
Definition extracted (s : string) : list string :=
  let words := PyStr.split_ws s in
  if has_A words then
    match PyStr.index_m1 words with
    | Some addr => [addr]
    | None => []
    end
  else [].

(** Every query of the list fails when sent in order after [history]. *)
Fixpoint all_fail (udp : list Query → Query → option Message)
    (history queries : list Query) : Prop :=
  match queries with
  | [] => True
  | q :: rest => udp history q = None ∧ all_fail udp (history ++ [q]) rest
  end.

(** What [lookup_servers] returns after a state change, against what was
    cached before. *)
Definition servers_grow (before after : gmap string (list string)) : Prop :=
  cache_le before after
  ∧ cache_nonempty after
  ∧ ∀ name L, cache_key name = Some L →
      match before !! L with
      | Some stored =>
          stored ≠ []
          ∧ ∃ more, lookup_servers name after = Some (stored ++ more)
      | None =>
          lookup_servers name before = Some ROOT_SERVERS
          ∧ ∀ found, after !! L = Some found →
              found ≠ [] ∧ lookup_servers name after = Some found
      end.

(** The address is stored under the key of the first word of the text. *)
Definition remembers (s : string) (cache : gmap string (list string))
    (addr : string) : Prop :=
  ∃ owner key stored,
    head (PyStr.split_ws s) = Some owner ∧ cache_key owner = Some key
    ∧ cache !! key = Some stored ∧ addr ∈ stored.

(** ** Transports and responses of the concrete scenarios *)

Global Instance Query_eq_dec : EqDecision Query.
Proof. solve_decision. Defined.

(** A transport that answers exactly the scripted queries, whatever was
    sent before, and fails on every other query. *)
Definition scripted (script : list (Query * Message))
    : list Query → Query → option Message :=
  λ _ q,
    match list_find (λ e, e.1 = q) script with
    | Some (_, (_, response)) => Some response
    | None => None
    end.

(** A transport on which every call fails. *)
Definition unreachable : list Query → Query → option Message := λ _ _, None.

(** The scenario of a referral with glue followed by a direct answer. *)
Definition referral_udp : list Query → Query → option Message :=
  scripted
    [(mkQuery "example.com." 1 "198.41.0.4",
      mkMessage [] [rrset "com." NS_TYPE ["a.gtld-servers.net."]]
        [rrset "a.gtld-servers.net." A_TYPE ["192.5.6.30"]]);
     (mkQuery "example.com." 1 "192.5.6.30",
      mkMessage [rrset "example.com." A_TYPE ["93.184.216.34"]] [] [])].

(** An answer to an A query: the alias first, then the address of its
    target. *)
Definition c3_response : Message :=
  mkMessage [rrset "www.example.com." CNAME_TYPE ["host.example.com."];
             rrset "host.example.com." A_TYPE ["192.0.2.10"]] [] [].

Definition c3_udp : list Query → Query → option Message :=
  scripted [(mkQuery "www.example.com." 1 "203.0.113.1", c3_response)].

(** An answer that holds the address record only. *)
Definition c3_direct : Message :=
  mkMessage [rrset "host.example.com." A_TYPE ["192.0.2.10"]] [] [].

(** An answer that holds one alias. *)
Definition c4_response : Message :=
  mkMessage [rrset "www.example.com." CNAME_TYPE ["host.example.com."]] [] [].

Definition c4_udp (qtype : Z) : list Query → Query → option Message :=
  scripted [(mkQuery "www.example.com." qtype "203.0.113.1", c4_response)].

(** An answer with a chain of two aliases. *)
Definition c4_chain : Message :=
  mkMessage [rrset "www.example.com." CNAME_TYPE ["host.example.com."];
             rrset "host.example.com." CNAME_TYPE ["real.example.net."]] [] [].

Definition c4_chain_udp : list Query → Query → option Message :=
  scripted [(mkQuery "www.example.com." 1 "203.0.113.1", c4_chain)].

(** The first candidate answers with an NS record only; the second one
    refers to a name server with its address. *)
Definition c2_unusable : Message :=
  mkMessage [rrset "example.com." NS_TYPE ["ns1.example.net."]] [] [].

Definition c2_referral : Message :=
  mkMessage [] [rrset "example.com." NS_TYPE ["ns1.example.net."]]
    [rrset "ns1.example.net." A_TYPE ["192.0.2.53"]].

Definition c2_wrong_answer : Message :=
  mkMessage [rrset "ns1.example.net." A_TYPE ["192.0.2.53"]] [] [].

Definition c2_udp : list Query → Query → option Message :=
  scripted [(mkQuery "www.example.com." 1 "203.0.113.1", c2_unusable);
            (mkQuery "www.example.com." 1 "203.0.113.2", c2_referral);
            (mkQuery "ns1.example.net." 1 "192.0.2.53", c2_wrong_answer)].








(** The first root server answers the CNAME query with an alias to a name
    of a single label. *)
Definition c7_alias : Message :=
  mkMessage [rrset "alias.example.com." CNAME_TYPE ["localhost."]] [] [].

Definition c7_udp : list Query → Query → option Message :=
  scripted [(mkQuery "alias.example.com." 5 "198.41.0.4", c7_alias)].

(** A root server refers to the servers of net with one glue address; that
    server answers. *)
Definition c8_referral : Message :=
  mkMessage [] [rrset "net." NS_TYPE ["a.gtld-servers.net."]]
    [rrset "a.gtld-servers.net." A_TYPE ["192.5.6.30"]].

Definition c8_answer : Message :=
  mkMessage [rrset "www.example.net." A_TYPE ["192.0.2.80"]] [] [].

Definition c8_udp : list Query → Query → option Message :=
  scripted [(mkQuery "www.example.net." 1 "198.41.0.4", c8_referral);
            (mkQuery "www.example.net." 1 "192.5.6.30", c8_answer)].

(** The first root server answers the CNAME query with the alias and the
    address record of the alias target. *)
Definition c10_answer : Message :=
  mkMessage [rrset "www.example.com." CNAME_TYPE ["host.example.com."];
             rrset "host.example.com." A_TYPE ["192.0.2.10"]] [] [].

Definition c10_udp : list Query → Query → option Message :=
  scripted [(mkQuery "www.example.com." 5 "198.41.0.4", c10_answer)].

(** ** Notions used in the further properties *)

(** A returned message holds a record of the type asked for. *)
Definition answers_type (qtype : Z) (v : option Message) : Prop :=
  match v with
  | Some r => ∃ rd, rd ∈ records (answer r) ∧ rdtype rd = qtype
  | None => True
  end.

Definition returns_type (qtype : Z) (m : M (option Message)) : Prop :=
  ∀ st v st', m st = Returns v st' → answers_type qtype v.

Definition flow_type (qtype : Z) (m : M Flow) : Prop :=
  ∀ st fl st', m st = Returns fl st' →
    match fl with
    | Return v => answers_type qtype v
    | FallThrough => True
    end.

(** A query of the requested type, or of type A as the chase of a
    name-server name sends. *)
Definition query_type_ok (qtype : Z) (q : Query) : Prop :=
  q_type q = qtype ∨ q_type q = 1.

(** Whenever the computation ends, the queries it added to the history all
    satisfy [ok]. *)
Definition sends_only {A} (ok : Query → Prop) (m : M A) : Prop :=
  ∀ st,
    match m st with
    | Returns _ st' | Raises _ st' =>
        ∃ more, sent st' = sent st ++ more ∧ Forall ok more
    | Diverges => True
    end.

(** Whenever the computation ends, a property of the label cache that held
    before still holds. *)
Definition keeps {A} (I : gmap string (list string) → Prop) (m : M A) : Prop :=
  ∀ st, I (dict_cache st) →
    match m st with
    | Returns _ st' | Raises _ st' => I (dict_cache st')
    | Diverges => True
    end.

(** No stored list repeats an address. *)
Definition cache_NoDup (c : gmap string (list string)) : Prop :=
  ∀ k l, c !! k = Some l → NoDup l.

(** The owner name of an RRset as dnspython prints it: not empty, without
    whitespace, and with a dot. *)
Definition owner_ok (rs : RRset) : bool :=
  negb (String.eqb (rr_name rs) "") && no_space (rr_name rs)
  && negb (no_dot (rr_name rs)).

Definition owners_ok (m : Message) : bool :=
  forallb owner_ok (answer m) && forallb owner_ok (additional m).

Definition never_raises {A} (m : M A) : Prop :=
  ∀ st e st', m st ≠ Raises e st'.

(** The computation never raises, and a message it returns has printable
    owner names. *)
Definition safe (m : M (option Message)) : Prop :=
  ∀ st,
    match m st with
    | Returns (Some r) _ => owners_ok r = true
    | Raises _ _ => False
    | _ => True
    end.

Definition safe_flow (m : M Flow) : Prop :=
  ∀ st,
    match m st with
    | Returns (Return (Some r)) _ => owners_ok r = true
    | Raises _ _ => False
    | _ => True
    end.



(** ** Name text that dnspython accepts *)

(** An ASCII character other than the backslash, which starts an escape. *)
Definition plain_char (c : ascii) : bool :=
  (nat_of_ascii c <? 128)%nat && negb (Ascii.eqb c (ascii_of_nat 92)).

(** A label is not empty and has at most 63 octets. *)
Definition label_ok (label : string) : bool :=
  negb (String.eqb label "") && (String.length label <=? 63)%nat.

(** The length of a name on the wire: one octet more than each label, and
    the root label. *)
Definition wire_length (labels : list string) : nat :=
  fold_right (λ label n, (S (String.length label) + n)%nat) 1%nat labels.

(** A sufficient condition for [dns.name.from_text], and so for
    [make_query] on a string, not to raise: plain ASCII text without
    escapes that is empty, the root, or a sequence of labels cut at dots
    (a final dot allowed) with no empty label, no label over 63 octets and
    at most 255 octets on the wire. *)
Definition accepted_text (text : string) : bool :=
  forallb plain_char (list_ascii_of_string text)
  && negb (String.eqb text "@")
  && (String.eqb text "" || String.eqb text "."
      || (let pieces := PyStr.split_on "." text in
          let labels :=
            if PyStr.ends_with_dot text then removelast pieces else pieces in
          forallb label_ok labels && (wire_length labels <=? 255)%nat)).

(** ** Paths on which a negative response ends the resolution *)






(** The first root server answers the A query for example.com and the
    CNAME query for alias.example.org, the latter with an alias to a name
    of a single label. *)
Definition raise_udp : list Query → Query → option Message :=
  scripted
    [(mkQuery "example.com." 1 "198.41.0.4",
      mkMessage [rrset "example.com." A_TYPE ["93.184.216.34"]] [] []);
     (mkQuery "alias.example.org." 5 "198.41.0.4",
      mkMessage [rrset "alias.example.org." CNAME_TYPE ["intranet."]] [] [])].

(** * Properties *)

(** ** The string primitives on examples *)

Example split_on_abs : PyStr.split_on "." "example.com." = ["example"; "com"; ""].
Proof. reflexivity. Qed.

Example split_on_empty : PyStr.split_on "." "" = [""].
Proof. reflexivity. Qed.

Example split_ws_line :
  PyStr.split_ws "a.gtld-servers.net. 172800 IN  A 192.5.6.30"
  = ["a.gtld-servers.net."; "172800"; "IN"; "A"; "192.5.6.30"].
Proof. reflexivity. Qed.

Example drop_last_dot : PyStr.drop_last "host.example.com." = "host.example.com".
Proof. reflexivity. Qed.

Example decimal_ttl : PyStr.decimal 172800 = "172800".
Proof. reflexivity. Qed.

Example glue_text :
  rrset_to_text (rrset "a.gtld-servers.net." A_TYPE ["192.5.6.30"])
  = "a.gtld-servers.net. 3600 IN A 192.5.6.30".
Proof. reflexivity. Qed.

(** Text that dnspython rejects is not accepted: an empty label, a label
    of 64 octets. *)
Example accepted_text_examples :
  accepted_text "example.com" = true
  ∧ accepted_text "example.com." = true
  ∧ accepted_text "" = true
  ∧ accepted_text "a..b" = false
  ∧ accepted_text ".example.com" = false
  ∧ accepted_text
      "aaaaaaaaaaaaaaaaaaaaaaaaaaaaaaaaaaaaaaaaaaaaaaaaaaaaaaaaaaaaaaaa.com"
    = false.
Proof. repeat split; reflexivity. Qed.

(** ** Strings *)

Lemma split_on_nonempty sep s : PyStr.split_on sep s ≠ [].
Proof.
  destruct s as [|c s]; simpl; [done|].
  destruct (Ascii.eqb c sep); [done|].
  by destruct (PyStr.split_on sep s).
Qed.

Lemma split_on_no_dot label :
  no_dot label = true → PyStr.split_on "." label = [label].
Proof.
  induction label as [|c rest IH]; simpl; [done|].
  intros [Hc Hrest]%andb_prop. apply negb_true_iff in Hc.
  rewrite Hc, (IH Hrest). done.
Qed.

Lemma append_cons c (a b : string) : String c a +:+ b = String c (a +:+ b).
Proof. reflexivity. Qed.

Lemma append_empty (b : string) : "" +:+ b = b.
Proof. reflexivity. Qed.

Lemma append_assoc (a b c : string) : (a +:+ b) +:+ c = a +:+ (b +:+ c).
Proof.
  induction a as [|x a IH]; [done|]. by rewrite !append_cons, IH.
Qed.

Lemma split_on_label_dot label rest :
  no_dot label = true →
  PyStr.split_on "." (label +:+ "." +:+ rest) = label :: PyStr.split_on "." rest.
Proof.
  induction label as [|c label IH]; [done|].
  intros [Hc Hrest]%andb_prop. apply negb_true_iff in Hc.
  rewrite append_cons. simpl. rewrite Hc, (IH Hrest). done.
Qed.

Lemma split_on_relative labels :
  labels ≠ [] → Forall (λ l, no_dot l = true) labels →
  PyStr.split_on "." (relative_text labels) = labels.
Proof.
  intros Hne Hall. induction Hall as [|l ls Hl Hls IH]; [done|].
  destruct ls as [|l' ls].
  - simpl. by apply split_on_no_dot.
  - change (relative_text (l :: l' :: ls))
      with (l +:+ "." +:+ relative_text (l' :: ls)).
    rewrite split_on_label_dot by done. by rewrite IH.
Qed.

Lemma split_on_absolute labels :
  labels ≠ [] → Forall (λ l, no_dot l = true) labels →
  PyStr.split_on "." (absolute_text labels) = labels ++ [""].
Proof.
  intros Hne Hall. unfold absolute_text.
  induction Hall as [|l ls Hl Hls IH]; [done|].
  destruct ls as [|l' ls].
  - change (PyStr.join "." [l] +:+ ".") with (l +:+ "." +:+ "").
    by rewrite split_on_label_dot.
  - change (PyStr.join "." (l :: l' :: ls))
      with (l +:+ "." +:+ PyStr.join "." (l' :: ls)).
    rewrite !append_assoc, split_on_label_dot by done.
    by rewrite IH.
Qed.

Lemma index_m2_snoc {A} (l : list A) (x : A) :
  PyStr.index_m2 (l ++ [x]) = PyStr.index_m1 l.
Proof.
  unfold PyStr.index_m2, PyStr.index_m1. rewrite rev_app_distr. simpl.
  by destruct (rev l).
Qed.

Lemma cache_key_relative labels :
  labels ≠ [] → Forall (λ l, no_dot l = true) labels →
  cache_key (relative_text labels) = PyStr.index_m2 labels.
Proof. intros. unfold cache_key. by rewrite split_on_relative. Qed.

Lemma cache_key_absolute labels :
  labels ≠ [] → Forall (λ l, no_dot l = true) labels →
  cache_key (absolute_text labels) = PyStr.index_m1 labels.
Proof.
  intros. unfold cache_key. rewrite split_on_absolute by done.
  apply index_m2_snoc.
Qed.

(** ** The address extractor and the label cache *)

Lemma remember_servers_lookup key addr cache :
  ∃ l, remember_servers key addr cache !! key = Some l ∧ addr ∈ l.
Proof.
  unfold remember_servers. destruct (cache !! key) as [stored|] eqn:E.
  - case_bool_decide.
    + eauto.
    + exists (stored ++ [addr]). rewrite lookup_insert_eq. set_solver.
  - exists [addr]. rewrite lookup_insert_eq. set_solver.
Qed.

Lemma remember_servers_other key addr cache k :
  k ≠ key → remember_servers key addr cache !! k = cache !! k.
Proof.
  intros Hne. unfold remember_servers.
  destruct (cache !! key); [case_bool_decide|];
    by rewrite ?lookup_insert_ne.
Qed.

Lemma remember_servers_idem key addr cache :
  remember_servers key addr (remember_servers key addr cache)
  = remember_servers key addr cache.
Proof.
  destruct (remember_servers_lookup key addr cache) as (l & Hl & Hin).
  unfold remember_servers at 1. rewrite Hl. by rewrite bool_decide_eq_true_2.
Qed.

Lemma remember_servers_le key addr cache :
  cache_le cache (remember_servers key addr cache).
Proof.
  intros k l1 Hk. unfold remember_servers.
  destruct (cache !! key) as [stored|] eqn:E.
  - case_bool_decide.
    + exists []. by rewrite app_nil_r.
    + destruct (decide (k = key)) as [->|Hne].
      * rewrite lookup_insert_eq. exists [addr]. congruence.
      * rewrite lookup_insert_ne by done. exists []. by rewrite app_nil_r.
  - destruct (decide (k = key)) as [->|Hne]; [congruence|].
    rewrite lookup_insert_ne by done. exists []. by rewrite app_nil_r.
Qed.

Lemma remember_servers_nonempty key addr cache :
  cache_nonempty cache → cache_nonempty (remember_servers key addr cache).
Proof.
  intros Hc k l. destruct (decide (k = key)) as [->|Hne].
  - destruct (remember_servers_lookup key addr cache) as (l' & Hl' & Hin).
    rewrite Hl'. intros [= <-] ->. by apply not_elem_of_nil in Hin.
  - rewrite remember_servers_other by done. apply Hc.
Qed.

Lemma remember_servers_NoDup key addr cache :
  (∀ k l, cache !! k = Some l → NoDup l) →
  ∀ k l, remember_servers key addr cache !! k = Some l → NoDup l.
Proof.
  intros Hc k l. unfold remember_servers.
  destruct (cache !! key) as [stored|] eqn:E.
  - case_bool_decide as Hin; [apply Hc|].
    destruct (decide (k = key)) as [->|Hne].
    + rewrite lookup_insert_eq. intros [= <-].
      apply NoDup_app. split; [by eapply Hc|]. split.
      * intros x Hx ->%list_elem_of_singleton. done.
      * apply NoDup_singleton.
    + rewrite lookup_insert_ne by done. apply Hc.
  - destruct (decide (k = key)) as [->|Hne].
    + rewrite lookup_insert_eq. intros [= <-]. apply NoDup_singleton.
    + rewrite lookup_insert_ne by done. apply Hc.
Qed.

Lemma cache_le_refl c : cache_le c c.
Proof. intros k l Hk. exists []. by rewrite app_nil_r. Qed.

Lemma cache_le_trans c1 c2 c3 : cache_le c1 c2 → cache_le c2 c3 → cache_le c1 c3.
Proof.
  intros H12 H23 k l1 Hk.
  destruct (H12 k l1 Hk) as (l2 & H2). destruct (H23 _ _ H2) as (l3 & H3).
  exists (l2 ++ l3). by rewrite app_assoc.
Qed.

Lemma ipv4_rows_closed_form ipv4_address rows ipv4_list cache :
  ipv4_rows ipv4_address rows ipv4_list cache
  = if has_A rows then
      match head ipv4_address, PyStr.index_m1 ipv4_address with
      | Some owner, Some addr =>
          match cache_key owner with
          | None => None
          | Some key => Some ([addr], remember_servers key addr cache)
          end
      | _, _ => None
      end
    else Some (ipv4_list, cache).
Proof.
  revert ipv4_list cache.
  induction rows as [|row rows IH]; intros ipv4_list cache; [done|].
  simpl. destruct (String.eqb row "A") eqn:Erow; simpl; [|apply IH].
  destruct (head ipv4_address) as [owner|]; [|done].
  destruct (PyStr.index_m1 ipv4_address) as [addr|]; [|done].
  destruct (cache_key owner) as [key|]; [|done].
  assert (ipv4_rows ipv4_address rows [addr] (remember_servers key addr cache)
    = Some ([addr], remember_servers key addr cache)) as Hnext.
  { rewrite IH, remember_servers_idem. by destruct (has_A rows). }
  revert Hnext. unfold remember_servers.
  destruct (cache !! key) as [stored|]; [case_bool_decide|]; done.
Qed.

Lemma ipv4_addr_closed_form s st :
  ipv4_addr s st
  = match ipv4_effect (PyStr.split_ws s) (dict_cache st) with
    | Some (ipv4_list, cache) => Returns ipv4_list (mkState cache (sent st))
    | None => Raises IndexError st
    end.
Proof. unfold ipv4_addr, ipv4_effect. by rewrite ipv4_rows_closed_form. Qed.

(** ** The state only grows *)

Lemma state_le_refl st : state_le st st.
Proof.
  split; [apply cache_le_refl|]. split; [done|].
  exists []. by rewrite app_nil_r.
Qed.

Lemma state_le_trans st1 st2 st3 :
  state_le st1 st2 → state_le st2 st3 → state_le st1 st3.
Proof.
  intros (Hc & Hn & m1 & Hs) (Hc' & Hn' & m2 & Hs').
  split; [by eapply cache_le_trans|]. split; [auto|].
  exists (m1 ++ m2). by rewrite Hs', Hs, app_assoc.
Qed.

Lemma grows_from {A} (m : M A) st st1 :
  grows m → state_le st st1 →
  match m st1 with
  | Returns _ st' | Raises _ st' => state_le st st'
  | Diverges => True
  end.
Proof.
  intros Hm Hle. specialize (Hm st1).
  destruct (m st1); eauto using state_le_trans.
Qed.

Lemma grows_ret {A} (a : A) : grows (ret a).
Proof. intros st. apply state_le_refl. Qed.

Lemma grows_bind {A B} (m : M A) (k : A → M B) :
  grows m → (∀ a, grows (k a)) → grows (bind m k).
Proof.
  intros Hm Hk st. unfold bind. specialize (Hm st).
  destruct (m st) as [a st'| |]; [|done..].
  by apply grows_from.
Qed.

Lemma grows_ipv4_addr s : grows (ipv4_addr s).
Proof.
  intros st. rewrite ipv4_addr_closed_form. unfold ipv4_effect.
  destruct (has_A _); [|destruct st; apply state_le_refl].
  destruct (head _) as [owner|]; [|apply state_le_refl].
  destruct (PyStr.index_m1 _) as [addr|]; [|apply state_le_refl].
  destruct (cache_key owner) as [key|]; [|apply state_le_refl].
  split; [apply remember_servers_le|].
  split; [apply remember_servers_nonempty|].
  exists []. by rewrite app_nil_r.
Qed.

Lemma state_le_record_query q st : state_le st (record_query q st).
Proof.
  split; [apply cache_le_refl|]. split; [done|]. by exists [q].
Qed.

Section ResolverGrows.

Variable udp : list Query → Query → option Message.
Variable rec : string → Z → list string → M (option Message).
Hypothesis grows_rec : ∀ t q s, grows (rec t q s).

Lemma grows_glue_addresses section address_list :
  grows (glue_addresses section address_list).
Proof using Type.
  revert address_list.
  induction section as [|record rest IH]; intros address_list; simpl.
  - apply grows_ret.
  - apply grows_bind; [apply grows_ipv4_addr|]. intros found. apply IH.
Qed.

Lemma grows_try_addresses t q section : grows (try_addresses rec t q section).
Proof using grows_rec.
  induction section as [|each_answer rest IH]; simpl.
  - apply grows_ret.
  - apply grows_bind; [apply grows_ipv4_addr|]. intros ns_address.
    apply grows_bind; [apply grows_rec|]. intros [r|]; [apply grows_ret|done].
Qed.

Lemma grows_chase_names t q ns_list : grows (chase_names rec t q ns_list).
Proof using grows_rec.
  induction ns_list as [|each_name rest IH]; simpl.
  - apply grows_ret.
  - apply grows_bind; [apply grows_rec|]. intros [m|]; [|done].
    apply grows_bind; [apply grows_try_addresses|].
    intros [v|]; [apply grows_ret|done].
Qed.

Lemma grows_walk_authority t q section ns_list :
  grows (walk_authority rec t q section ns_list).
Proof using grows_rec.
  revert ns_list.
  induction section as [|auth_list rest IH]; intros ns_list; simpl.
  - apply grows_ret.
  - destruct (scan_auth _ _) as [ns_list'|]; [|apply grows_ret].
    apply grows_bind; [apply grows_chase_names|].
    intros [v|]; [apply grows_ret|apply IH].
Qed.

Lemma grows_try_servers qname q t servers :
  grows (try_servers udp rec qname q t servers).
Proof using grows_rec.
  revert t. induction servers as [|each_server rest IH]; intros t.
  - apply grows_ret.
  - intros st. simpl.
    pose proof (state_le_record_query (mkQuery qname q each_server) st) as Hq.
    destruct (udp _ _) as [response|]; [|by apply grows_from].
    destruct (0 <? length (answer response))%nat.
    { destruct (scan_answer _ _ _); [done| |]; by apply grows_from. }
    destruct (0 <? length (additional response))%nat.
    { apply grows_from; [|done].
      apply grows_bind; [apply grows_glue_addresses|]. intros l. apply grows_rec. }
    apply grows_from; [|done].
    apply grows_bind; [apply grows_walk_authority|].
    intros [v|]; [apply grows_ret|apply IH].
Qed.

Lemma grows_resolver_body t q servers :
  grows (resolver_body udp rec t q servers).
Proof using grows_rec.
  destruct servers; [apply grows_ret|apply grows_try_servers].
Qed.

End ResolverGrows.

Lemma grows_recursive_resolver udp fuel t q servers :
  grows (recursive_resolver udp fuel t q servers).
Proof.
  revert t q servers. induction fuel as [|fuel IH]; intros t q servers.
  - by intros st.
  - simpl. by apply grows_resolver_body.
Qed.

Lemma grows_lookup udp fuel t q : grows (lookup udp fuel t q).
Proof.
  intros st. unfold lookup.
  destruct (lookup_servers _ _); [apply grows_recursive_resolver|].
  apply state_le_refl.
Qed.

Lemma grows_collect_results udp fuel name : grows (collect_results udp fuel name).
Proof.
  unfold collect_results.
  repeat (apply grows_bind; [apply grows_lookup|]; intros ?).
  apply grows_ret.
Qed.

(** ** Words of a record's text *)

Lemma split_ws_aux_word w s cur :
  no_space w = true →
  PyStr.split_ws_aux (w +:+ s) cur
  = PyStr.split_ws_aux s (rev (list_ascii_of_string w) ++ cur).
Proof.
  revert cur. induction w as [|c w IH]; intros cur; [done|].
  intros [Hc Hw]%andb_prop. apply negb_true_iff in Hc.
  rewrite append_cons. simpl. rewrite Hc, IH by done.
  by rewrite <- app_assoc.
Qed.

Lemma split_ws_first_word w rest :
  w ≠ "" → no_space w = true →
  PyStr.split_ws (w +:+ " " +:+ rest) = w :: PyStr.split_ws rest.
Proof.
  intros Hne Hw. unfold PyStr.split_ws.
  rewrite split_ws_aux_word, app_nil_r by done.
  change (" " +:+ rest) with (String " " rest). simpl.
  destruct (rev (list_ascii_of_string w)) as [|c cur] eqn:E.
  - destruct w; [done|]. apply (f_equal (@rev ascii)) in E.
    rewrite rev_involutive in E. done.
  - rewrite <- E, rev_involutive, string_of_list_ascii_of_string. done.
Qed.

Lemma absolute_text_nonempty labels : absolute_text labels ≠ "".
Proof. unfold absolute_text. by destruct (PyStr.join "." labels). Qed.

Lemma index_m1_cons_is_Some {A} (x : A) l : is_Some (PyStr.index_m1 (x :: l)).
Proof.
  unfold PyStr.index_m1. simpl. destruct (rev l) as [|y r]; simpl; eauto.
Qed.

(** ** C1: the key of the label cache *)

(** What [lookup] does with its key. *)
Lemma lookup_by_key udp fuel target_name qtype st :
  lookup udp fuel target_name qtype st
  = match cache_key target_name with
    | None => Raises IndexError st
    | Some key =>
        recursive_resolver udp fuel target_name qtype
          (default ROOT_SERVERS (dict_cache st !! key)) st
    end.
Proof.
  unfold lookup, lookup_servers. destruct (cache_key target_name); [|done].
  by destruct (dict_cache st !! _).
Qed.

(** The text of an RRset starts with its owner name and a space. *)
Lemma rrset_to_text_owner rs :
  ∃ rest, rrset_to_text rs = rr_name rs +:+ " " +:+ rest.
Proof.
  unfold rrset_to_text. destruct (rr_items rs) as [|rd [|rd' rds]].
  - eauto.
  - simpl. unfold rrset_line. eauto.
  - change (PyStr.join PyStr.newline (map (rrset_line rs) (rd :: rd' :: rds)))
      with (rrset_line rs rd +:+ PyStr.newline
            +:+ PyStr.join PyStr.newline (map (rrset_line rs) (rd' :: rds))).
    unfold rrset_line at 1. rewrite !append_assoc. eauto.
Qed.

(** What [ipv4_addr] does with a text that starts with an owner name: with
    no word [A] it returns nothing and changes nothing; otherwise it
    returns one address, remembered under the key of the owner. *)
Lemma ipv4_addr_by_key owner rest st :
  owner ≠ "" → no_space owner = true →
  ipv4_addr (owner +:+ " " +:+ rest) st = Returns [] st
  ∨ ∃ addr,
      ipv4_addr (owner +:+ " " +:+ rest) st
      = match cache_key owner with
        | None => Raises IndexError st
        | Some key =>
            Returns [addr]
              (mkState (remember_servers key addr (dict_cache st)) (sent st))
        end.
Proof.
  intros Hne Hsp.
  rewrite ipv4_addr_closed_form, split_ws_first_word by done.
  unfold ipv4_effect. destruct (has_A _); [|left; by destruct st].
  destruct (index_m1_cons_is_Some owner (PyStr.split_ws rest)) as [addr Haddr].
  right. exists addr. rewrite Haddr. simpl. by destruct (cache_key owner).
Qed.

(** C1 (as amended).  The label cache is keyed by the second-to-last piece
    of a name's text cut at dots, in [lookup] and in [ipv4_addr] alike.  For
    the absolute, dot-terminated text of a name with the given labels (the
    name [collect_results] first queries, and every record owner) that key
    is the last, top-level label; only for a text without the final dot (an
    alias target after [[:-1]]) is it the second-to-last label.  [lookup]
    takes its servers from the entry of that key, and [ipv4_addr], when it
    finds an address in an RRset owned by the name, remembers it under that
    key. *)
Theorem C1_label_cache_key (labels : list string) :
  labels ≠ [] →
  Forall (λ l, no_dot l = true) labels →
  no_space (absolute_text labels) = true →
  cache_key (absolute_text labels) = PyStr.index_m1 labels
  ∧ cache_key (relative_text labels) = PyStr.index_m2 labels
  ∧ (∀ udp fuel qtype st,
       lookup udp fuel (absolute_text labels) qtype st
       = match PyStr.index_m1 labels with
         | None => Raises IndexError st
         | Some top =>
             recursive_resolver udp fuel (absolute_text labels) qtype
               (default ROOT_SERVERS (dict_cache st !! top)) st
         end)
  ∧ (∀ rs st,
       rr_name rs = absolute_text labels →
       ipv4_addr (rrset_to_text rs) st = Returns [] st
       ∨ ∃ addr,
           ipv4_addr (rrset_to_text rs) st
           = match PyStr.index_m1 labels with
             | None => Raises IndexError st
             | Some top =>
                 Returns [addr]
                   (mkState (remember_servers top addr (dict_cache st)) (sent st))
             end).
Proof.
  intros Hne Hdots Hsp.
  pose proof (cache_key_absolute labels Hne Hdots) as Habs.
  split; [done|]. split; [by apply cache_key_relative|]. split.
  - intros. by rewrite lookup_by_key, Habs.
  - intros rs st Hname. destruct (rrset_to_text_owner rs) as [rest ->].
    rewrite Hname, <- Habs.
    apply ipv4_addr_by_key; [apply absolute_text_nonempty|done].
Qed.

Lemma C1_label_cache_key_witness :
  cache_key "example.com." = Some "com"
  ∧ cache_key "example.com" = Some "example".
Proof.
  destruct (C1_label_cache_key ["example"; "com"]) as (H1 & H2 & _).
  - done.
  - repeat constructor.
  - reflexivity.
  - split; [exact H1|exact H2].
Defined.

(** The claim as written fails: for the name example.com the key that
    [lookup] uses is "com", not the second-to-last label "example", so
    servers cached under "example" are not consulted; and the address of a
    record owned by ns.example.com. is remembered under "com". *)
Lemma C1_counterexample :
  PyStr.index_m2 ["example"; "com"] = Some "example"
  ∧ cache_key (name_from_text "example.com") = Some "com"
  ∧ lookup_servers (name_from_text "example.com")
      {[ "example" := ["192.0.2.1"] ]} = Some ROOT_SERVERS
  ∧ lookup_servers (name_from_text "example.com")
      {[ "com" := ["192.0.2.1"] ]} = Some ["192.0.2.1"]
  ∧ ∃ st,
      ipv4_addr (rrset_to_text (rrset "ns.example.com." A_TYPE ["192.0.2.1"]))
        initial_state = Returns ["192.0.2.1"] st
      ∧ dict_cache st !! "example" = None
      ∧ dict_cache st !! "com" = Some ["192.0.2.1"].
Proof.
  repeat split; try reflexivity.
  eexists. repeat split; vm_compute; reflexivity.
Qed.

(** ** The walker, one call at a time *)


(** The single base case: an empty candidate list gives [None] at once. *)
Lemma recursive_resolver_no_servers udp fuel target_name qtype st :
  recursive_resolver udp (S fuel) target_name qtype [] st = Returns None st.
Proof. reflexivity. Qed.

Example referral_scenario :
  ∃ results st,
    collect_results referral_udp 2 "example.com" initial_state
    = Returns results st
    ∧ rs_CNAME results = []
    ∧ rs_A results = [mkAddr "example.com." "93.184.216.34"]
    ∧ map_to_list (dict_cache st) = [("net", ["192.5.6.30"])].
Proof. do 2 eexists. split; [vm_compute; reflexivity|]. by vm_compute. Qed.

(** ** The scan of the answer section *)

Lemma scan_answer_skip qtype pre rds target_name :
  unusable qtype pre →
  scan_answer qtype (pre ++ rds) target_name
  = scan_answer qtype rds
      (fold_left (λ _ rd, PyStr.drop_last (rd_text rd)) pre target_name).
Proof.
  intros Hpre. revert target_name.
  induction Hpre as [|rd pre [Hq Hc] _ IH]; intros target_name; [done|].
  simpl. apply Z.eqb_neq in Hq, Hc. rewrite Hq, Hc. apply IH.
Qed.

Lemma scan_answer_match qtype pre r post target_name :
  unusable qtype pre → rdtype r = qtype →
  scan_answer qtype (pre ++ r :: post) target_name = ScanMatch.
Proof.
  intros Hpre Hr. rewrite scan_answer_skip by done. simpl.
  by rewrite (proj2 (Z.eqb_eq _ _) Hr).
Qed.

Lemma scan_answer_alias qtype pre r post target_name :
  unusable qtype pre → rdtype r = 5 → qtype ≠ 5 →
  scan_answer qtype (pre ++ r :: post) target_name
  = ScanAlias (PyStr.drop_last (rd_text r)).
Proof.
  intros Hpre Hr Hq. rewrite scan_answer_skip by done. simpl.
  rewrite Hr. destruct (5 =? qtype) eqn:E; [|done].
  apply Z.eqb_eq in E. congruence.
Qed.

Lemma records_nonempty_section section r :
  r ∈ records section → (0 <? length section)%nat = true.
Proof.
  destruct section; [|done]. unfold records. simpl.
  by intros ?%not_elem_of_nil.
Qed.

(** ** C3: an answer of the requested type *)

(** C3 (as amended).  When the response of a candidate server has, in its
    answer section, a record of the requested type with no CNAME record and
    no record of the requested type before it, the walker returns that
    whole message at once: the only query added to the history is the one
    that was answered, and the cache is untouched. *)
Theorem C3_matching_answer_returns udp fuel qname qtype target_name
    each_server rest st response pre r post :
  udp (sent st) (mkQuery qname qtype each_server) = Some response →
  records (answer response) = pre ++ r :: post →
  unusable qtype pre →
  rdtype r = qtype →
  try_servers udp (recursive_resolver udp fuel) qname qtype target_name
    (each_server :: rest) st
  = Returns (Some response)
      (mkState (dict_cache st) (sent st ++ [mkQuery qname qtype each_server])).
Proof.
  intros Hudp Hrec Hpre Hr. simpl. rewrite Hudp.
  rewrite (records_nonempty_section _ r) by (rewrite Hrec; set_solver).
  by rewrite Hrec, scan_answer_match.
Qed.

Lemma C3_matching_answer_returns_witness :
  try_servers (scripted [(mkQuery "host.example.com." 1 "203.0.113.1", c3_direct)])
    (recursive_resolver
       (scripted [(mkQuery "host.example.com." 1 "203.0.113.1", c3_direct)]) 0)
    "host.example.com." 1 "host.example.com." ["203.0.113.1"; "203.0.113.2"]
    initial_state
  = Returns (Some c3_direct)
      (mkState ∅ [mkQuery "host.example.com." 1 "203.0.113.1"]).
Proof.
  apply (C3_matching_answer_returns _ 0%nat _ _ _ _ _ initial_state c3_direct
           [] (rdata A_TYPE "192.0.2.10") []).
  - reflexivity.
  - reflexivity.
  - constructor.
  - reflexivity.
Defined.

(** The claim as written fails: the answer below holds an A record, the
    requested type, yet a CNAME record precedes it, so the walker restarts
    for the alias target at the thirteen root servers instead of returning
    the message; with those unreachable it ends with [None]. *)
Lemma C3_counterexample :
  wf_message c3_response = true
  ∧ (∃ r, r ∈ records (answer c3_response) ∧ rdtype r = 1)
  ∧ ∃ st,
      recursive_resolver c3_udp 2 "www.example.com." 1 ["203.0.113.1"]
        initial_state = Returns None st
      ∧ length (sent st) = 14%nat.
Proof.
  split; [reflexivity|]. split.
  - exists (rdata A_TYPE "192.0.2.10"). split; [|reflexivity].
    unfold records. simpl. set_solver.
  - eexists. split; vm_compute; reflexivity.
Qed.

(** ** C4: an alias in the answer *)

(** C4 (as amended).  When the requested type is not CNAME and the response
    of a candidate server has, in its answer section, a CNAME record with
    no CNAME record and no record of the requested type before it, the
    walker takes the text of that record without its final dot as the alias
    target and continues as the resolution of (alias target, requested
    type) from the fixed root server list, whatever the current candidate
    list is. *)
Theorem C4_alias_restarts_from_root udp fuel qname qtype target_name
    each_server rest st response pre r post :
  udp (sent st) (mkQuery qname qtype each_server) = Some response →
  records (answer response) = pre ++ r :: post →
  unusable qtype pre →
  rdtype r = 5 →
  qtype ≠ 5 →
  try_servers udp (recursive_resolver udp fuel) qname qtype target_name
    (each_server :: rest) st
  = recursive_resolver udp fuel (PyStr.drop_last (rd_text r)) qtype
      ROOT_SERVERS
      (mkState (dict_cache st) (sent st ++ [mkQuery qname qtype each_server])).
Proof.
  intros Hudp Hrec Hpre Hr Hq. simpl. rewrite Hudp.
  rewrite (records_nonempty_section _ r) by (rewrite Hrec; set_solver).
  by rewrite Hrec, scan_answer_alias.
Qed.

Lemma C4_alias_restarts_from_root_witness :
  try_servers (c4_udp 1) (recursive_resolver (c4_udp 1) 1)
    "www.example.com." 1 "www.example.com." ["203.0.113.1"; "203.0.113.2"]
    initial_state
  = recursive_resolver (c4_udp 1) 1 "host.example.com" 1 ROOT_SERVERS
      (mkState ∅ [mkQuery "www.example.com." 1 "203.0.113.1"]).
Proof.
  apply (C4_alias_restarts_from_root _ 1%nat _ _ _ _ _ initial_state c4_response
           [] (rdata CNAME_TYPE "host.example.com.") []).
  - reflexivity.
  - reflexivity.
  - constructor.
  - reflexivity.
  - discriminate.
Defined.

(** The claim as written fails when the requested type is CNAME itself, as
    in the first query of [collect_results]: the answer holds a CNAME record
    with nothing before it, and the walker returns the message after one
    query; resolving the alias target from the root servers would instead
    send thirteen more queries and, here, end with [None].  It also fails
    for the second CNAME record of a chain: no record of the requested type
    A precedes it, yet the walker restarts for the target of the first
    CNAME record, host.example.com, not for real.example.net. *)
Lemma C4_counterexample :
  (wf_message c4_response = true
   ∧ records (answer c4_response) = [rdata CNAME_TYPE "host.example.com."]
   ∧ recursive_resolver (c4_udp 5) 2 "www.example.com." 5 ["203.0.113.1"]
       initial_state
     = Returns (Some c4_response)
         (mkState ∅ [mkQuery "www.example.com." 5 "203.0.113.1"])
   ∧ ∃ st,
       recursive_resolver (c4_udp 5) 1 "host.example.com" 5 ROOT_SERVERS
         (mkState ∅ [mkQuery "www.example.com." 5 "203.0.113.1"])
       = Returns None st
       ∧ length (sent st) = 14%nat)
  ∧ (wf_message c4_chain = true
     ∧ records (answer c4_chain)
       = [rdata CNAME_TYPE "host.example.com.";
          rdata CNAME_TYPE "real.example.net."]
     ∧ ∃ st,
         recursive_resolver c4_chain_udp 2 "www.example.com." 1 ["203.0.113.1"]
           initial_state
         = Returns None st
         ∧ sent st !! 1%nat = Some (mkQuery "host.example.com." 1 "198.41.0.4")
         ∧ mkQuery "real.example.net." 1 "198.41.0.4" ∉ sent st).
Proof.
  split.
  - repeat split; try reflexivity.
    eexists. split; vm_compute; reflexivity.
  - repeat split; try reflexivity.
    eexists. split; [vm_compute; reflexivity|]. split; [reflexivity|].
    apply (bool_decide_eq_false_1 (_ ∈ _)). vm_compute. reflexivity.
Qed.

(** ** C2: a referral with glue *)

Lemma ipv4_addr_extracted s st l st' :
  ipv4_addr s st = Returns l st' → l = extracted s.
Proof.
  rewrite ipv4_addr_closed_form. unfold ipv4_effect, extracted.
  destruct (has_A _); [|by intros [= <- _]].
  destruct (head _); [|done]. destruct (PyStr.index_m1 _); [|done].
  destruct (cache_key _); [|done]. by intros [= <- _].
Qed.

Lemma glue_addresses_list section address_list st l st' :
  glue_addresses section address_list st = Returns l st' →
  l = address_list ++ flat_map (λ record, extracted (rrset_to_text record)) section.
Proof.
  revert address_list st.
  induction section as [|record rest IH]; intros address_list st; simpl.
  - intros [= <- _]. by rewrite app_nil_r.
  - unfold bind at 1.
    destruct (ipv4_addr _ st) as [found st1| |] eqn:E; [|done..].
    intros H%IH. apply ipv4_addr_extracted in E. subst. by rewrite app_assoc.
Qed.

(** The step of the walker on a response with an empty answer section and a
    non-empty additional section: the extractor runs on every additional
    RRset in order, and the walker recurses on the loop's current
    [target_name] with the same type against the addresses gathered. *)
Lemma glue_referral_step udp rec qname qtype target_name each_server rest st
    response :
  udp (sent st) (mkQuery qname qtype each_server) = Some response →
  answer response = [] →
  additional response ≠ [] →
  try_servers udp rec qname qtype target_name (each_server :: rest) st
  = (address_list <- glue_addresses (additional response) [] ;;
     rec target_name qtype address_list)
      (record_query (mkQuery qname qtype each_server) st).
Proof.
  intros Hudp Hans Hadd. simpl. rewrite Hudp, Hans. simpl.
  by destruct (additional response).
Qed.

(** At the first candidate of a call the current name is still the one the
    call was given. *)
Lemma glue_referral_first_candidate udp fuel target_name qtype each_server rest
    st response :
  udp (sent st) (mkQuery (name_from_text target_name) qtype each_server)
    = Some response →
  answer response = [] →
  additional response ≠ [] →
  recursive_resolver udp (S fuel) target_name qtype (each_server :: rest) st
  = (address_list <- glue_addresses (additional response) [] ;;
     recursive_resolver udp fuel target_name qtype address_list)
      (record_query (mkQuery (name_from_text target_name) qtype each_server) st).
Proof. intros. by apply glue_referral_step. Qed.

(** C2 (the code departs from the claim).  The query is for
    www.example.com, type A.  The first candidate returns an answer with
    neither an A nor a CNAME record, which overwrites [target_name]; the
    second returns a referral with glue.  The walker then recurses against
    the glue address, but for the name ns1.example.net taken from the first
    answer, not for the original query name: the third query in the history
    asks for that name, and its answer is returned as the result. *)
Theorem C2_glue_recursion_name_overwritten :
  wf_message c2_unusable = true ∧ wf_message c2_referral = true
  ∧ answer c2_referral = [] ∧ additional c2_referral ≠ []
  ∧ ∃ st,
      recursive_resolver c2_udp 2 "www.example.com." 1
        ["203.0.113.1"; "203.0.113.2"] initial_state
      = Returns (Some c2_wrong_answer) st
      ∧ sent st = [mkQuery "www.example.com." 1 "203.0.113.1";
                   mkQuery "www.example.com." 1 "203.0.113.2";
                   mkQuery "ns1.example.net." 1 "192.0.2.53"].
Proof.
  repeat split; try reflexivity; try discriminate.
  eexists. split; vm_compute; reflexivity.
Qed.

(** ** C5: the negative answer *)


Lemma walk_authority_skip_empty rec target_name qtype pre section st :
  Forall (λ rs, rr_items rs = []) pre →
  walk_authority rec target_name qtype (pre ++ section) [] st
  = walk_authority rec target_name qtype section [] st.
Proof.
  induction 1 as [|rs pre Hrs _ IH]; [done|].
  simpl. by rewrite Hrs.
Qed.

(** ** C6: transport failures *)

Lemma all_fail_always udp history queries :
  (∀ h q, udp h q = None) → all_fail udp history queries.
Proof.
  intros Hudp. revert history.
  induction queries as [|q rest IH]; intros history; simpl; auto.
Qed.

Lemma try_servers_fail_step udp rec qname qtype target_name each_server rest st :
  udp (sent st) (mkQuery qname qtype each_server) = None →
  try_servers udp rec qname qtype target_name (each_server :: rest) st
  = try_servers udp rec qname qtype target_name rest
      (mkState (dict_cache st) (sent st ++ [mkQuery qname qtype each_server])).
Proof. intros Hudp. simpl. by rewrite Hudp. Qed.

Lemma try_servers_all_fail udp rec qname qtype target_name servers st :
  all_fail udp (sent st) (map (mkQuery qname qtype) servers) →
  try_servers udp rec qname qtype target_name servers st
  = Returns None
      (mkState (dict_cache st) (sent st ++ map (mkQuery qname qtype) servers)).
Proof.
  revert st. induction servers as [|each_server rest IH]; intros st.
  - intros _. simpl. rewrite app_nil_r. by destruct st.
  - intros [Hq Hrest]. rewrite try_servers_fail_step by done.
    rewrite IH by done. simpl. by rewrite <- app_assoc.
Qed.

Lemma resolver_all_fail udp fuel target_name qtype servers st :
  all_fail udp (sent st)
    (map (mkQuery (name_from_text target_name) qtype) servers) →
  recursive_resolver udp (S fuel) target_name qtype servers st
  = Returns None
      (mkState (dict_cache st)
         (sent st ++ map (mkQuery (name_from_text target_name) qtype) servers)).
Proof.
  intros Hfail. simpl. unfold resolver_body. destruct servers as [|s rest].
  - simpl. rewrite app_nil_r. by destruct st.
  - by apply try_servers_all_fail.
Qed.

(** The text of a parsed name always has a key: [lookup] cannot raise on
    the name [collect_results] starts from. *)
Lemma split_on_dot_terminated a :
  ∃ pieces, pieces ≠ [] ∧ PyStr.split_on "." (a +:+ ".") = pieces ++ [""].
Proof.
  induction a as [|c a (pieces & Hne & IH)].
  - by exists [""].
  - rewrite append_cons. simpl. rewrite IH.
    destruct (Ascii.eqb c "."); [by exists ("" :: pieces)|].
    destruct pieces as [|p ps]; [done|]. by exists (String c p :: ps).
Qed.

Lemma ends_with_dot_split s :
  PyStr.ends_with_dot s = true → ∃ a, s = a +:+ ".".
Proof.
  unfold PyStr.ends_with_dot, PyStr.index_m1.
  destruct (rev (list_ascii_of_string s)) as [|c r] eqn:E; [done|].
  intros Hc. apply Ascii.eqb_eq in Hc. subst c.
  exists (string_of_list_ascii (rev r)).
  apply (f_equal (@rev ascii)) in E. rewrite rev_involutive in E. simpl in E.
  rewrite <- (string_of_list_ascii_of_string s), E.
  clear E. induction (rev r) as [|x l IH]; [done|].
  simpl. by rewrite IH.
Qed.

Lemma cache_key_name_from_text name : is_Some (cache_key (name_from_text name)).
Proof.
  assert (∃ a, name_from_text name = a +:+ ".") as [a ->].
  { unfold name_from_text. destruct (PyStr.ends_with_dot name) eqn:E; [|eauto].
    by apply ends_with_dot_split. }
  destruct (split_on_dot_terminated a) as (pieces & Hne & Hsplit).
  unfold cache_key. rewrite Hsplit, index_m2_snoc.
  unfold PyStr.index_m1. destruct (rev pieces) eqn:E; [|eauto].
  apply (f_equal (@rev string)) in E. by rewrite rev_involutive in E.
Qed.

Lemma lookup_unreachable udp fuel target_name qtype st :
  (∀ h q, udp h q = None) →
  is_Some (cache_key target_name) →
  ∃ more,
    lookup udp (S fuel) target_name qtype st
    = Returns None (mkState (dict_cache st) (sent st ++ more)).
Proof.
  intros Hudp [key Hkey]. rewrite lookup_by_key, Hkey.
  eexists. apply resolver_all_fail. by apply all_fail_always.
Qed.

(** C6.  A candidate whose transport call fails is skipped: the loop goes
    on with the remaining candidates, the name and the type unchanged, and
    nothing is raised.  For a name text that dnspython accepts, when every
    candidate of the list fails, the walker returns [None], having queried
    each candidate once in order and left the cache untouched; and when
    every transport call fails, [collect_results] returns the record set of
    four empty lists. *)
Theorem C6_transport_failures udp fuel :
  (∀ qname qtype target_name each_server rest st,
     udp (sent st) (mkQuery qname qtype each_server) = None →
     try_servers udp (recursive_resolver udp fuel) qname qtype target_name
       (each_server :: rest) st
     = try_servers udp (recursive_resolver udp fuel) qname qtype target_name
         rest
         (mkState (dict_cache st) (sent st ++ [mkQuery qname qtype each_server])))
  ∧ (∀ target_name qtype servers st,
       accepted_text target_name = true →
       all_fail udp (sent st)
         (map (mkQuery (name_from_text target_name) qtype) servers) →
       recursive_resolver udp (S fuel) target_name qtype servers st
       = Returns None
           (mkState (dict_cache st)
              (sent st
               ++ map (mkQuery (name_from_text target_name) qtype) servers)))
  ∧ ((∀ h q, udp h q = None) →
     ∀ name st,
       accepted_text name = true →
       ∃ more,
         collect_results udp (S fuel) name st
         = Returns (mkRecordSet [] [] [] [])
             (mkState (dict_cache st) (sent st ++ more))).
Proof.
  split; [intros; by apply try_servers_fail_step|].
  split; [intros; by apply resolver_all_fail|].
  intros Hudp name st _.
  pose proof (cache_key_name_from_text name) as Hkey.
  unfold collect_results, bind.
  destruct (lookup_unreachable udp fuel (name_from_text name) 5 st Hudp Hkey)
    as [m1 ->]. simpl.
  destruct (lookup_unreachable udp fuel (name_from_text name) 1
              (mkState (dict_cache st) (sent st ++ m1)) Hudp Hkey) as [m2 ->].
  simpl.
  destruct (lookup_unreachable udp fuel (name_from_text name) 28
              (mkState (dict_cache st) ((sent st ++ m1) ++ m2)) Hudp Hkey)
    as [m3 ->]. simpl.
  destruct (lookup_unreachable udp fuel (name_from_text name) 15
              (mkState (dict_cache st) (((sent st ++ m1) ++ m2) ++ m3)) Hudp Hkey)
    as [m4 ->]. simpl.
  exists (m1 ++ m2 ++ m3 ++ m4). unfold ret. by rewrite !app_assoc.
Qed.

Lemma C6_transport_failures_witness :
  recursive_resolver unreachable 1 "example.com." 1 ["203.0.113.1"; "203.0.113.2"]
    initial_state
  = Returns None
      (mkState ∅ [mkQuery "example.com." 1 "203.0.113.1";
                  mkQuery "example.com." 1 "203.0.113.2"])
  ∧ ∃ more,
      collect_results unreachable 1 "example.com" initial_state
      = Returns (mkRecordSet [] [] [] []) (mkState ∅ more).
Proof.
  destruct (C6_transport_failures unreachable 0) as (_ & Hall & Hcollect).
  split.
  - apply (Hall "example.com." 1 ["203.0.113.1"; "203.0.113.2"] initial_state).
    + reflexivity.
    + simpl. repeat split; reflexivity.
  - apply (Hcollect (λ _ _, eq_refl) "example.com" initial_state).
    reflexivity.
Defined.

(** ** C7: the four sub-queries of the collector *)


(** C7 (the code departs from the claim).  For the name alias.example.com,
    whose CNAME record points to the single-label name localhost, the CNAME
    sub-query succeeds and sets the working target to the text "localhost";
    the A sub-query then raises IndexError in [lookup], where [tld[-2]]
    needs two pieces, and [collect_results] ends by that exception: the only
    query ever sent is the CNAME one, so the A, AAAA and MX sub-queries are
    never attempted and no record set is returned. *)
Theorem C7_collector_aborts_on_single_label_alias (fuel : nat) :
  wf_message c7_alias = true
  ∧ cname_target (name_from_text "alias.example.com") (Some c7_alias) = "localhost"
  ∧ cache_key "localhost" = None
  ∧ collect_results c7_udp (S fuel) "alias.example.com" initial_state
    = Raises IndexError
        (mkState ∅ [mkQuery "alias.example.com." 5 "198.41.0.4"]).
Proof. repeat split; vm_compute; reflexivity. Qed.

(** ** C8: the label cache only grows *)

Lemma servers_grow_of_le before after :
  cache_nonempty before → cache_nonempty after → cache_le before after →
  servers_grow before after.
Proof.
  intros Hb Ha Hle. split; [done|]. split; [done|].
  intros name L HL. unfold lookup_servers. rewrite HL.
  destruct (before !! L) as [stored|] eqn:E.
  - split; [by eapply Hb|]. destruct (Hle _ _ E) as [more ->]. eauto.
  - split; [done|]. intros found Hf. rewrite Hf. split; [by eapply Ha|done].
Qed.

Lemma ipv4_addr_remembers s st addr st' :
  ipv4_addr s st = Returns [addr] st' → remembers s (dict_cache st') addr.
Proof.
  rewrite ipv4_addr_closed_form. unfold ipv4_effect.
  destruct (has_A _); [|done].
  destruct (head _) as [owner|] eqn:Ho; [|done].
  destruct (PyStr.index_m1 _) as [a|]; [|done].
  destruct (cache_key owner) as [key|] eqn:Hk; [|done].
  intros [= Ha Hst]. subst a st'. simpl.
  destruct (remember_servers_lookup key addr (dict_cache st)) as (l & Hl & Hin).
  by exists owner, key, l.
Qed.

Lemma ipv4_addr_NoDup s st l st' :
  ipv4_addr s st = Returns l st' →
  (∀ k v, dict_cache st !! k = Some v → NoDup v) →
  ∀ k v, dict_cache st' !! k = Some v → NoDup v.
Proof.
  rewrite ipv4_addr_closed_form. unfold ipv4_effect.
  destruct (has_A _); [|by intros [= _ <-]].
  destruct (head _) as [owner|]; [|done].
  destruct (PyStr.index_m1 _) as [a|]; [|done].
  destruct (cache_key owner) as [key|]; [|done].
  intros [= _ <-]. simpl. apply remember_servers_NoDup.
Qed.

(** C8 (as amended).  [ipv4_addr] only appends to the label cache: every
    stored list is kept as a prefix of the list stored afterwards, no list
    gets a repeated address, and an address it returns is stored under the
    key of the record's owner.  Hence after any resolution by [lookup],
    however it ends, a name whose key was cached before gets from
    [lookup_servers] a non-empty list that extends the list cached before;
    a name whose key was not cached before got the root servers, and gets
    afterwards the non-empty list cached under its key in the meantime, if
    any, in place of the root servers (not a superset of them). *)
Theorem C8_label_cache_monotone udp fuel target_name qtype st :
  cache_nonempty (dict_cache st) →
  (∀ s st0 l st1,
     ipv4_addr s st0 = Returns l st1 →
     cache_le (dict_cache st0) (dict_cache st1)
     ∧ ((∀ k v, dict_cache st0 !! k = Some v → NoDup v) →
        ∀ k v, dict_cache st1 !! k = Some v → NoDup v)
     ∧ ∀ addr, l = [addr] → remembers s (dict_cache st1) addr)
  ∧ match lookup udp fuel target_name qtype st with
    | Returns _ st' | Raises _ st' =>
        servers_grow (dict_cache st) (dict_cache st')
    | Diverges => True
    end.
Proof.
  intros Hne. split.
  - intros s st0 l st1 Hs. split.
    + pose proof (grows_ipv4_addr s st0) as H. rewrite Hs in H. apply H.
    + split; [by eapply ipv4_addr_NoDup|].
      intros addr ->. by eapply ipv4_addr_remembers.
  - pose proof (grows_lookup udp fuel target_name qtype st) as H.
    destruct (lookup udp fuel target_name qtype st) as [r st'|e st'|]; [| |done];
      destruct H as (Hle & Hn & _); apply servers_grow_of_le; auto.
Qed.

Lemma C8_label_cache_monotone_witness :
  match lookup c8_udp 2 "www.example.net." 1 initial_state with
  | Returns _ st' | Raises _ st' => servers_grow ∅ (dict_cache st')
  | Diverges => True
  end.
Proof.
  refine (proj2 (C8_label_cache_monotone c8_udp 2 "www.example.net." 1
                   initial_state _)).
  intros k l. simpl. rewrite lookup_empty. discriminate.
Defined.

(** The claim as written fails: before the resolution below the cache is
    empty and a name under net is looked up at the thirteen root servers;
    the resolution observes a glue address for the label net, and afterwards
    the same name is looked up at that single address, a list that holds
    none of the root servers. *)
Lemma C8_counterexample :
  lookup_servers "mail.example.net." (dict_cache initial_state)
  = Some ROOT_SERVERS
  ∧ ∃ st,
      lookup c8_udp 2 "www.example.net." 1 initial_state
      = Returns (Some c8_answer) st
      ∧ dict_cache st !! "net" = Some ["192.5.6.30"]
      ∧ lookup_servers "mail.example.net." (dict_cache st) = Some ["192.5.6.30"]
      ∧ ¬ (∀ s, s ∈ ROOT_SERVERS → s ∈ ["192.5.6.30"]).
Proof.
  split; [reflexivity|]. eexists.
  split; [vm_compute; reflexivity|]. split; [reflexivity|].
  split; [reflexivity|].
  intros H. specialize (H "198.41.0.4").
  assert ("198.41.0.4" ∈ ROOT_SERVERS) as Hin by (unfold ROOT_SERVERS; set_solver).
  apply H in Hin. apply list_elem_of_singleton in Hin. discriminate.
Qed.

(** ** C9: the result cache *)

Lemma dedup_args_repeated name : dedup_args [name; name] [] = [name].
Proof.
  simpl. case_bool_decide as H; [done|]. set_solver.
Qed.

(** On the command line a repeated name is dropped before the result cache
    is consulted: it is resolved and printed once. *)
Lemma main_repeated_name udp fuel name p :
  main udp fuel [name; name] p = main udp fuel [name] p.
Proof.
  unfold main.
  change (length [name; name] <=? 1)%nat with false.
  change (1 <? length [name; name])%nat with true.
  by rewrite dedup_args_repeated.
Qed.

(** C9.  Once a request for a name has been served, its record set is
    stored in the result cache under the name string exactly as requested,
    and the entries of all other strings are as before.  A second request
    for the same string is served from that entry: whatever the transport
    would answer, it returns the same record set, prints it, and leaves the
    resolver state as it was, so that no query is sent. *)
Theorem C9_result_cache_memoizes udp fuel name p results p1 :
  serve udp fuel name p = Returns results p1 →
  domain_cache p1 !! name = Some results
  ∧ (∀ other, other ≠ name → domain_cache p1 !! other = domain_cache p !! other)
  ∧ ∀ udp2 fuel2,
      serve udp2 fuel2 name p1
      = Returns results
          (mkProcess (resolver p1) (domain_cache p1)
             (stdout p1 ++ print_results results)).
Proof.
  unfold serve at 1. destruct (domain_cache p !! name) as [stored|] eqn:E.
  - intros [= <- <-]. simpl. split; [done|]. split; [done|].
    intros. unfold serve. simpl. by rewrite E.
  - destruct (collect_results udp fuel name (resolver p)) as [r st| |]; [|done..].
    intros [= <- <-]. simpl. split; [apply lookup_insert_eq|].
    split; [intros; by apply lookup_insert_ne|].
    intros. unfold serve. simpl. by rewrite lookup_insert_eq.
Qed.

Lemma C9_result_cache_memoizes_witness :
  ∃ p1,
    serve unreachable 1 "example.com" initial_process
    = Returns (mkRecordSet [] [] [] []) p1
    ∧ length (sent (resolver p1)) = 52%nat
    ∧ serve referral_udp 1 "example.com" p1
      = Returns (mkRecordSet [] [] [] [])
          (mkProcess (resolver p1) (domain_cache p1) (stdout p1)).
Proof.
  eexists. split; [vm_compute; reflexivity|]. split; [reflexivity|].
  refine (eq_trans
    (proj2 (proj2 (C9_result_cache_memoizes unreachable 1 "example.com"
                     initial_process _ _ _)) referral_udp 1%nat) _).
  - vm_compute. reflexivity.
  - reflexivity.
Defined.

(** The key is the string as typed: the same name with a final dot is a
    different key and is resolved again. *)
Example result_cache_exact_match :
  ∃ p1 p2,
    serve unreachable 1 "example.com" initial_process
    = Returns (mkRecordSet [] [] [] []) p1
    ∧ serve unreachable 1 "example.com." p1 = Returns (mkRecordSet [] [] [] []) p2
    ∧ length (sent (resolver p1)) = 52%nat
    ∧ length (sent (resolver p2)) = 104%nat.
Proof.
  do 2 eexists. split; [vm_compute; reflexivity|].
  split; [vm_compute; reflexivity|]. split; reflexivity.
Qed.

(** ** C10: the CNAME step of the collector *)

Lemma fold_left_last {A B} (f : B → A) (l : list B) (a : A) :
  fold_left (λ _ x, f x) l a
  = match last l with
    | Some x => f x
    | None => a
    end.
Proof.
  revert a. induction l as [|x l IH]; intros a; [done|].
  simpl. rewrite IH, last_cons. by destruct (last l).
Qed.

Lemma addr_entries_filtered t response e :
  e ∈ addr_entries t response →
  ∃ m answers answer_rd,
    response = Some m ∧ answers ∈ answer m ∧ answer_rd ∈ rr_items answers
    ∧ rdtype answer_rd = t
    ∧ e = mkAddr (rr_name answers) (rd_text answer_rd).
Proof.
  destruct response as [m|]; simpl; [|by intros ?%not_elem_of_nil].
  rewrite list_elem_of_In, in_flat_map.
  intros (answers & Hin & He). apply in_map_iff in He as (rd & <- & Hrd).
  apply list_elem_of_In, list_elem_of_filter in Hrd as [Ht Hrd].
  exists m, answers, rd. by rewrite list_elem_of_In.
Qed.

Lemma mx_entries_filtered response e :
  e ∈ mx_entries response →
  ∃ m answers answer_rd,
    response = Some m ∧ answers ∈ answer m ∧ answer_rd ∈ rr_items answers
    ∧ rdtype answer_rd = 15
    ∧ e = mkMx (rr_name answers) (preference answer_rd) (exchange answer_rd).
Proof.
  destruct response as [m|]; simpl; [|by intros ?%not_elem_of_nil].
  rewrite list_elem_of_In, in_flat_map.
  intros (answers & Hin & He). apply in_map_iff in He as (rd & <- & Hrd).
  apply list_elem_of_In, list_elem_of_filter in Hrd as [Ht Hrd].
  exists m, answers, rd. by rewrite list_elem_of_In.
Qed.

(** C10.  When the CNAME sub-query returns a message, every record of its
    answer section, of whatever type, becomes a pair of the CNAME list, and
    the working target of the A, AAAA and MX sub-queries is taken from the
    text of the last of these records (the text without its final
    character, the dot that ends an absolute name).  The A, AAAA and MX
    lists in contrast hold only records of their own type. *)
Theorem C10_cname_step_unfiltered udp fuel name st m st1 :
  lookup udp fuel (name_from_text name) 5 st = Returns (Some m) st1 →
  collect_results udp fuel name st
  = (let target_name :=
       match last (records (answer m)) with
       | Some answer_rd => PyStr.drop_last (rd_text answer_rd)
       | None => name_from_text name
       end in
     r2 <- lookup udp fuel target_name 1 ;;
     r3 <- lookup udp fuel target_name 28 ;;
     r4 <- lookup udp fuel target_name 15 ;;
     ret (mkRecordSet
            (map (λ answer_rd, mkCname answer_rd name) (records (answer m)))
            (addr_entries 1 r2) (addr_entries 28 r3) (mx_entries r4))) st1
  ∧ (∀ t response e, e ∈ addr_entries t response →
       ∃ m' answers answer_rd,
         response = Some m' ∧ answers ∈ answer m' ∧ answer_rd ∈ rr_items answers
         ∧ rdtype answer_rd = t
         ∧ e = mkAddr (rr_name answers) (rd_text answer_rd))
  ∧ (∀ response e, e ∈ mx_entries response →
       ∃ m' answers answer_rd,
         response = Some m' ∧ answers ∈ answer m' ∧ answer_rd ∈ rr_items answers
         ∧ rdtype answer_rd = 15
         ∧ e = mkMx (rr_name answers) (preference answer_rd) (exchange answer_rd)).
Proof.
  intros Hlookup. split; [|split].
  - unfold collect_results. unfold bind at 1. rewrite Hlookup.
    unfold cname_target, cname_entries. by rewrite fold_left_last.
  - apply addr_entries_filtered.
  - apply mx_entries_filtered.
Qed.

Lemma C10_cname_step_unfiltered_witness :
  ∃ st,
    collect_results c10_udp 1 "www.example.com" initial_state
    = Returns
        (mkRecordSet
           [mkCname (rdata CNAME_TYPE "host.example.com.") "www.example.com";
            mkCname (rdata A_TYPE "192.0.2.10") "www.example.com"] [] [] []) st
    ∧ sent st !! 1%nat = Some (mkQuery "192.0.2.1." 1 "198.41.0.4").
Proof.
  eexists.
  rewrite (proj1 (C10_cname_step_unfiltered c10_udp 1 "www.example.com"
                    initial_state c10_answer
                    (mkState ∅ [mkQuery "www.example.com." 5 "198.41.0.4"])
                    eq_refl)).
  split; vm_compute; reflexivity.
Defined.

(** ** C5: what a negative response ends *)









(** * Further properties of the code *)

(** ** ipv4_addr: what it returns, when it raises, what a repeat does *)

Lemma has_A_words rows :
  has_A rows = true →
  ∃ owner addr, head rows = Some owner ∧ PyStr.index_m1 rows = Some addr.
Proof.
  destruct rows as [|owner rows]; [done|]. intros _.
  destruct (index_m1_cons_is_Some owner rows) as [addr Haddr]. eauto.
Qed.

Lemma no_dot_false_split s :
  no_dot s = false → ∃ a b rest, PyStr.split_on "." s = a :: b :: rest.
Proof.
  induction s as [|c s IH]; [done|]. simpl.
  destruct (Ascii.eqb c ".") eqn:E; simpl.
  - intros _. pose proof (split_on_nonempty "." s) as Hne.
    destruct (PyStr.split_on "." s) as [|b rest]; [done|]. eauto.
  - intros (a & b & rest & ->)%IH. eauto.
Qed.

Lemma cache_key_None_iff s : cache_key s = None ↔ no_dot s = true.
Proof.
  split.
  - destruct (no_dot s) eqn:E; [done|].
    destruct (no_dot_false_split s E) as (a & b & rest & Hs).
    unfold cache_key, PyStr.index_m2. rewrite Hs.
    pose proof (length_rev (a :: b :: rest)) as Hlen.
    destruct (rev (a :: b :: rest)) as [|x [|y r]]; done.
  - intros Hs. unfold cache_key. by rewrite split_on_no_dot.
Qed.

(** However many address records its text holds, [ipv4_addr] returns at
    most one address, the last word of the text, and it never touches the
    history of queries. *)
Theorem ipv4_addr_at_most_one s st l st' :
  ipv4_addr s st = Returns l st' →
  l = extracted s
  ∧ (length l ≤ 1)%nat
  ∧ (∀ addr, l = [addr] → PyStr.index_m1 (PyStr.split_ws s) = Some addr)
  ∧ sent st' = sent st.
Proof.
  intros Hs. pose proof (ipv4_addr_extracted _ _ _ _ Hs) as Hl.
  split; [done|]. revert Hs. rewrite ipv4_addr_closed_form.
  unfold ipv4_effect. subst l. unfold extracted.
  destruct (has_A _).
  - destruct (head _); [|done]. destruct (PyStr.index_m1 _) as [a|]; [|done].
    destruct (cache_key _); [|done]. intros [= <-]. simpl.
    repeat split; [lia|]. by intros addr [= ->].
  - intros [= <-]. simpl. repeat split; [lia|done].
Qed.

Lemma ipv4_addr_at_most_one_witness :
  ["192.0.2.2"]
  = extracted
      (rrset_to_text (rrset "ns1.example.net." A_TYPE ["192.0.2.1"; "192.0.2.2"]))
  ∧ (length ["192.0.2.2"] ≤ 1)%nat
  ∧ (∀ addr, ["192.0.2.2"] = [addr] →
       PyStr.index_m1
         (PyStr.split_ws
            (rrset_to_text
               (rrset "ns1.example.net." A_TYPE ["192.0.2.1"; "192.0.2.2"])))
       = Some addr)
  ∧ sent (mkState {[ "net" := ["192.0.2.2"] ]} []) = sent initial_state.
Proof.
  apply (ipv4_addr_at_most_one _ initial_state ["192.0.2.2"]
           (mkState {[ "net" := ["192.0.2.2"] ]} [])).
  vm_compute. reflexivity.
Defined.

(** Running [ipv4_addr] again on the same text returns the same address
    and leaves the cache exactly as the first run left it. *)
Theorem ipv4_addr_idempotent s st l st1 :
  ipv4_addr s st = Returns l st1 → ipv4_addr s st1 = Returns l st1.
Proof.
  rewrite !ipv4_addr_closed_form. unfold ipv4_effect.
  destruct (has_A _); [|by intros [= <- <-]].
  destruct (head _); [|done]. destruct (PyStr.index_m1 _) as [a|]; [|done].
  destruct (cache_key _) as [key|]; [|done].
  intros [= <- <-]. simpl. by rewrite remember_servers_idem.
Qed.

Lemma ipv4_addr_idempotent_witness :
  ipv4_addr "ns1.example.net. 3600 IN A 192.0.2.1"
    (mkState {[ "net" := ["192.0.2.1"] ]} [])
  = Returns ["192.0.2.1"] (mkState {[ "net" := ["192.0.2.1"] ]} []).
Proof.
  apply (ipv4_addr_idempotent _ initial_state). vm_compute. reflexivity.
Defined.

(** [ipv4_addr] raises exactly when its text has a word [A] and its first
    word holds no dot; the exception is IndexError and the state is left as
    it was. *)
Theorem ipv4_addr_raises_iff s st e st' :
  ipv4_addr s st = Raises e st'
  ↔ e = IndexError ∧ st' = st
    ∧ has_A (PyStr.split_ws s) = true
    ∧ ∃ owner, head (PyStr.split_ws s) = Some owner ∧ no_dot owner = true.
Proof.
  rewrite ipv4_addr_closed_form. unfold ipv4_effect.
  destruct (has_A _) eqn:HA.
  - destruct (has_A_words _ HA) as (owner & addr & -> & ->).
    destruct (cache_key owner) as [key|] eqn:Hk.
    + split; [done|]. intros (_ & _ & _ & o & [= <-] & Ho).
      apply cache_key_None_iff in Ho. congruence.
    + split.
      * destruct e. intros [= <-]. repeat split. exists owner.
        split; [done|]. by apply cache_key_None_iff.
      * destruct e. by intros (_ & -> & _).
  - split; [done|]. by intros (_ & _ & ? & _).
Qed.

Lemma ipv4_addr_raises_iff_witness :
  ipv4_addr "localhost 300 IN A 192.0.2.1" initial_state
  = Raises IndexError initial_state.
Proof.
  apply (proj2 (ipv4_addr_raises_iff _ _ _ _)).
  repeat split. exists "localhost". split; reflexivity.
Defined.

(** ** lookup: targets without a dot; the key of an alias target *)

(** For a target text without a dot [lookup] raises IndexError before
    anything else happens: no query is sent and the cache is not read,
    whatever the recursion budget. *)
Theorem lookup_dot_free_raises udp fuel target_name qtype st :
  no_dot target_name = true →
  lookup udp fuel target_name qtype st = Raises IndexError st.
Proof.
  intros Hd. apply cache_key_None_iff in Hd. by rewrite lookup_by_key, Hd.
Qed.

Lemma lookup_dot_free_raises_witness :
  lookup unreachable 0 "localhost" 1 initial_state
  = Raises IndexError initial_state.
Proof. apply lookup_dot_free_raises. reflexivity. Defined.

Lemma drop_last_dot_terminated s : PyStr.drop_last (s +:+ ".") = s.
Proof.
  induction s as [|c s IH]; [done|].
  rewrite append_cons. simpl. rewrite IH.
  by destruct (s +:+ ".") eqn:E; [destruct s|].
Qed.

(** The alias target that [collect_results] and the walker derive from a
    record's text by [[:-1]] is the name without its final dot, so [lookup]
    files it under the second-to-last label, where the absolute text of
    the same name is filed under its last label; a target of a single
    label has no key at all, and [lookup] raises on it. *)
Theorem alias_target_key (labels : list string) :
  labels ≠ [] →
  Forall (λ l, no_dot l = true) labels →
  PyStr.drop_last (absolute_text labels) = relative_text labels
  ∧ cache_key (PyStr.drop_last (absolute_text labels)) = PyStr.index_m2 labels
  ∧ (length labels = 1%nat →
     ∀ udp fuel qtype st,
       lookup udp fuel (PyStr.drop_last (absolute_text labels)) qtype st
       = Raises IndexError st).
Proof.
  intros Hne Hd.
  assert (PyStr.drop_last (absolute_text labels) = relative_text labels) as Hdrop
    by apply drop_last_dot_terminated.
  split; [done|]. rewrite Hdrop.
  pose proof (cache_key_relative labels Hne Hd) as Hkey.
  split; [done|]. intros Hlen udp fuel qtype st.
  rewrite lookup_by_key, Hkey. by destruct labels as [|x [|y l]].
Qed.

Lemma alias_target_key_witness :
  PyStr.drop_last "host.example.com." = "host.example.com"
  ∧ cache_key (PyStr.drop_last "host.example.com.") = Some "example".
Proof.
  destruct (alias_target_key ["host"; "example"; "com"]) as (H1 & H2 & _).
  - done.
  - repeat constructor.
  - split; [exact H1|exact H2].
Defined.

(** ** The walker returns only messages that answer the question *)

Lemma bind_Returns {A B} (m : M A) (k : A → M B) st b st' :
  bind m k st = Returns b st' ↔
  ∃ a st1, m st = Returns a st1 ∧ k a st1 = Returns b st'.
Proof.
  unfold bind. destruct (m st) as [a st1|e st1|].
  - split; [eauto|]. intros (a' & st1' & Heq & H). by injection Heq as -> ->.
  - split; [done|]. by intros (a' & st1' & Heq & H).
  - split; [done|]. by intros (a' & st1' & Heq & H).
Qed.

Lemma bind_Raises {A B} (m : M A) (k : A → M B) st e st' :
  bind m k st = Raises e st' ↔
  m st = Raises e st' ∨ ∃ a st1, m st = Returns a st1 ∧ k a st1 = Raises e st'.
Proof.
  unfold bind. destruct (m st) as [a st1|e1 st1|].
  - split; [eauto|]. intros [Heq|(a' & st1' & Heq & H)]; [done|].
    by injection Heq as -> ->.
  - destruct e, e1. split; [intros Heq; injection Heq as ->; by left|].
    intros [Heq|(a' & st1' & Heq & H)]; [|done]. by injection Heq as ->.
  - split; [done|]. by intros [Heq|(a' & st1' & Heq & H)].
Qed.

Lemma scan_answer_match_inv qtype rds target_name :
  scan_answer qtype rds target_name = ScanMatch →
  ∃ rd, rd ∈ rds ∧ rdtype rd = qtype.
Proof.
  revert target_name. induction rds as [|rd rds IH]; intros t; [done|].
  simpl. destruct (rdtype rd =? qtype) eqn:E.
  - intros _. exists rd. split; [set_solver|]. by apply Z.eqb_eq.
  - destruct (rdtype rd =? 5); [done|].
    intros (rd' & Hin & Hrd)%IH. exists rd'. split; [set_solver|done].
Qed.

Section ResolverAnswers.
Variable udp : list Query → Query → option Message.
Variable rec : string → Z → list string → M (option Message).
Hypothesis rec_type : ∀ t q s, returns_type q (rec t q s).

Lemma try_addresses_type t q section : flow_type q (try_addresses rec t q section).
Proof using rec_type.
  induction section as [|each_answer rest IH]; intros st fl st'; simpl.
  - by intros [= <- _].
  - intros (ns & st1 & _ & H)%bind_Returns.
    apply bind_Returns in H as (r & st2 & Hr & H).
    destruct r as [r|]; [|by eapply IH].
    injection H as <- _. by eapply rec_type.
Qed.

Lemma chase_names_type t q ns_list : flow_type q (chase_names rec t q ns_list).
Proof using rec_type.
  induction ns_list as [|each_name rest IH]; intros st fl st'; simpl.
  - by intros [= <- _].
  - intros (r & st1 & _ & H)%bind_Returns.
    destruct r as [m|]; [|by eapply IH].
    apply bind_Returns in H as (fl1 & st2 & Hfl & H).
    destruct fl1 as [v|]; [|by eapply IH].
    injection H as <- _. exact (try_addresses_type t q _ _ _ _ Hfl).
Qed.

Lemma walk_authority_type t q section ns_list :
  flow_type q (walk_authority rec t q section ns_list).
Proof using rec_type.
  revert ns_list.
  induction section as [|auth_list rest IH]; intros ns_list st fl st'; simpl.
  - by intros [= <- _].
  - destruct (scan_auth _ _) as [ns_list'|]; [|by intros [= <- _]].
    intros (fl1 & st1 & Hfl & H)%bind_Returns.
    destruct fl1 as [v|]; [|by eapply IH].
    injection H as <- _. exact (chase_names_type t q _ _ _ _ Hfl).
Qed.

Lemma try_servers_type qname q t servers :
  returns_type q (try_servers udp rec qname q t servers).
Proof using rec_type.
  revert t. induction servers as [|each_server rest IH]; intros t st v st'.
  - by intros [= <- _].
  - simpl. destruct (udp _ _) as [response|]; [|by apply IH].
    destruct (0 <? length (answer response))%nat.
    { destruct (scan_answer _ _ _) eqn:E.
      - intros [= <- _]. by apply scan_answer_match_inv in E.
      - by apply rec_type.
      - by apply IH. }
    destruct (0 <? length (additional response))%nat.
    { intros (l & st1 & _ & H)%bind_Returns. by eapply rec_type. }
    intros (fl & st1 & Hfl & H)%bind_Returns.
    destruct fl as [v'|]; [|by eapply IH].
    injection H as <- _. exact (walk_authority_type t q _ _ _ _ _ Hfl).
Qed.

End ResolverAnswers.

Lemma recursive_resolver_type udp fuel t q servers :
  returns_type q (recursive_resolver udp fuel t q servers).
Proof.
  revert t q servers. induction fuel as [|fuel IH]; intros t q servers; [done|].
  simpl. unfold resolver_body. destruct servers; [by intros st v st' [= <- _]|].
  by apply try_servers_type.
Qed.

Lemma answers_type_entries t m :
  answers_type t (Some m) → addr_entries t (Some m) ≠ [].
Proof.
  intros (rd & Hin & Ht). unfold records in Hin.
  apply list_elem_of_In, in_concat in Hin as (items & Hitems & Hrd).
  apply in_map_iff in Hitems as (answers & <- & Hanswers).
  assert (mkAddr (rr_name answers) (rd_text rd) ∈ addr_entries t (Some m)) as He.
  { simpl. apply list_elem_of_In, in_flat_map. exists answers. split; [done|].
    apply in_map_iff. exists rd. split; [done|].
    apply list_elem_of_In, list_elem_of_filter. by rewrite list_elem_of_In. }
  intros Hnil. rewrite Hnil in He. by apply not_elem_of_nil in He.
Qed.

(** A message returned by a resolution always holds, in its answer section,
    a record of the requested type: messages that only refer elsewhere, and
    the answers of the name-server address lookups made on the way, are
    never handed back.  So a sub-query of [collect_results] for A or AAAA
    that returns a message contributes at least one entry. *)
Theorem lookup_returns_requested_type udp fuel target_name qtype st m st' :
  lookup udp fuel target_name qtype st = Returns (Some m) st' →
  (∃ rd, rd ∈ records (answer m) ∧ rdtype rd = qtype)
  ∧ addr_entries qtype (Some m) ≠ [].
Proof.
  intros H. unfold lookup in H.
  destruct (lookup_servers _ _) as [servers|]; [|done].
  apply recursive_resolver_type in H. split; [done|].
  by apply answers_type_entries.
Qed.

Lemma lookup_returns_requested_type_witness :
  (∃ rd,
     rd ∈ records
            (answer (mkMessage [rrset "example.com." A_TYPE ["93.184.216.34"]] [] []))
     ∧ rdtype rd = 1)
  ∧ addr_entries 1
      (Some (mkMessage [rrset "example.com." A_TYPE ["93.184.216.34"]] [] []))
    ≠ [].
Proof.
  apply (lookup_returns_requested_type referral_udp 2 "example.com." 1
           initial_state _
           (mkState {[ "net" := ["192.5.6.30"] ]}
              [mkQuery "example.com." 1 "198.41.0.4";
               mkQuery "example.com." 1 "192.5.6.30"])).
  vm_compute. reflexivity.
Defined.

(** ** The queries a resolution sends *)

Lemma sends_only_ret {A} ok (a : A) : sends_only ok (ret a).
Proof. intros st. exists []. by rewrite app_nil_r. Qed.

Lemma sends_only_bind {A B} ok (m : M A) (k : A → M B) :
  sends_only ok m → (∀ a, sends_only ok (k a)) → sends_only ok (bind m k).
Proof.
  intros Hm Hk st. unfold bind. specialize (Hm st).
  destruct (m st) as [a st1| |]; [|done..].
  destruct Hm as (m1 & Hs1 & Hok1). specialize (Hk a st1).
  destruct (k a st1) as [b st2|e st2|]; [| |done];
    destruct Hk as (m2 & Hs2 & Hok2); exists (m1 ++ m2);
    (split; [by rewrite Hs2, Hs1, app_assoc|by apply Forall_app]).
Qed.

Lemma sends_only_weaken {A} (ok ok' : Query → Prop) (m : M A) :
  (∀ q, ok q → ok' q) → sends_only ok m → sends_only ok' m.
Proof.
  intros Himp Hm st. specialize (Hm st).
  destruct (m st); [| |done]; destruct Hm as (more & Hs & Hok);
    exists more; (split; [done|]); by eapply Forall_impl.
Qed.

Lemma sends_only_ipv4_addr ok s : sends_only ok (ipv4_addr s).
Proof.
  intros st. rewrite ipv4_addr_closed_form.
  destruct (ipv4_effect _ _) as [[l c]|]; exists []; by rewrite app_nil_r.
Qed.

Lemma sends_only_after {A} ok (m : M A) q st :
  sends_only ok m → ok q →
  match m (record_query q st) with
  | Returns _ st' | Raises _ st' =>
      ∃ more, sent st' = sent st ++ more ∧ Forall ok more
  | Diverges => True
  end.
Proof.
  intros Hm Hq. specialize (Hm (record_query q st)).
  destruct (m _); [| |done]; destruct Hm as (more & Hs & Hok);
    exists (q :: more); (split; [by rewrite Hs; simpl; rewrite <- app_assoc|]);
    by constructor.
Qed.

Section ResolverQueries.
Variable udp : list Query → Query → option Message.
Variable rec : string → Z → list string → M (option Message).
Hypothesis rec_queries : ∀ t q s, sends_only (query_type_ok q) (rec t q s).

Lemma glue_addresses_queries ok section address_list :
  sends_only ok (glue_addresses section address_list).
Proof using Type.
  revert address_list.
  induction section as [|record rest IH]; intros address_list; simpl.
  - apply sends_only_ret.
  - apply sends_only_bind; [apply sends_only_ipv4_addr|]. intros l. apply IH.
Qed.

Lemma try_addresses_queries t q section :
  sends_only (query_type_ok q) (try_addresses rec t q section).
Proof using rec_queries.
  induction section as [|each_answer rest IH]; simpl.
  - apply sends_only_ret.
  - apply sends_only_bind; [apply sends_only_ipv4_addr|]. intros ns.
    apply sends_only_bind; [apply rec_queries|].
    intros [r|]; [apply sends_only_ret|done].
Qed.

Lemma chase_names_queries t q ns_list :
  sends_only (query_type_ok q) (chase_names rec t q ns_list).
Proof using rec_queries.
  induction ns_list as [|each_name rest IH]; simpl.
  - apply sends_only_ret.
  - apply sends_only_bind.
    { eapply sends_only_weaken; [|apply rec_queries].
      intros x [H|H]; by right. }
    intros [m|]; [|done].
    apply sends_only_bind; [apply try_addresses_queries|].
    intros [v|]; [apply sends_only_ret|done].
Qed.

Lemma walk_authority_queries t q section ns_list :
  sends_only (query_type_ok q) (walk_authority rec t q section ns_list).
Proof using rec_queries.
  revert ns_list.
  induction section as [|auth_list rest IH]; intros ns_list; simpl.
  - apply sends_only_ret.
  - destruct (scan_auth _ _) as [ns_list'|]; [|apply sends_only_ret].
    apply sends_only_bind; [apply chase_names_queries|].
    intros [v|]; [apply sends_only_ret|apply IH].
Qed.

Lemma try_servers_queries qname q t servers :
  sends_only (query_type_ok q) (try_servers udp rec qname q t servers).
Proof using rec_queries.
  revert t. induction servers as [|each_server rest IH]; intros t.
  - apply sends_only_ret.
  - intros st. simpl.
    assert (query_type_ok q (mkQuery qname q each_server)) as Hq by by left.
    destruct (udp _ _) as [response|]; [|by apply sends_only_after].
    destruct (0 <? length (answer response))%nat.
    { destruct (scan_answer _ _ _); [|by apply sends_only_after..].
      exists [mkQuery qname q each_server]. split; [done|]. by constructor. }
    destruct (0 <? length (additional response))%nat.
    { apply sends_only_after; [|done].
      apply sends_only_bind; [apply glue_addresses_queries|].
      intros l. apply rec_queries. }
    apply sends_only_after; [|done].
    apply sends_only_bind; [apply walk_authority_queries|].
    intros [v|]; [apply sends_only_ret|apply IH].
Qed.

End ResolverQueries.

Lemma recursive_resolver_queries udp fuel t q servers :
  sends_only (query_type_ok q) (recursive_resolver udp fuel t q servers).
Proof.
  revert t q servers. induction fuel as [|fuel IH]; intros t q servers.
  - by intros st.
  - simpl. unfold resolver_body.
    destruct servers; [apply sends_only_ret|by apply try_servers_queries].
Qed.

Lemma lookup_queries udp fuel t q :
  sends_only (query_type_ok q) (lookup udp fuel t q).
Proof.
  intros st. unfold lookup.
  destruct (lookup_servers _ _); [apply recursive_resolver_queries|].
  exists []. by rewrite app_nil_r.
Qed.

(** Whenever a resolution ends, by a result or by an exception, every
    query it has sent asks for the requested type or for type A (the
    address of a name server), and the earlier history is kept in front;
    the queries of [collect_results] therefore only ask for CNAME, A, AAAA
    or MX. *)
Theorem resolution_query_types udp fuel :
  (∀ target_name qtype servers st,
     match recursive_resolver udp fuel target_name qtype servers st with
     | Returns _ st' | Raises _ st' =>
         ∃ more, sent st' = sent st ++ more
                 ∧ Forall (λ q, q_type q = qtype ∨ q_type q = 1) more
     | Diverges => True
     end)
  ∧ (∀ name st,
       match collect_results udp fuel name st with
       | Returns _ st' | Raises _ st' =>
           ∃ more, sent st' = sent st ++ more
                   ∧ Forall (λ q, q_type q ∈ [5; 1; 28; 15]) more
       | Diverges => True
       end).
Proof.
  split; [intros; apply recursive_resolver_queries|].
  intros name. unfold collect_results.
  assert (∀ t q, q ∈ [5; 1; 28; 15] →
            sends_only (λ x, q_type x ∈ [5; 1; 28; 15]) (lookup udp fuel t q))
    as Hl.
  { intros t q Hq. eapply sends_only_weaken; [|apply lookup_queries].
    intros x [->|H]; [done|]. rewrite H. do 2 constructor. }
  repeat (apply sends_only_bind; [apply Hl; set_solver|]; intros ?).
  apply sends_only_ret.
Qed.

(** ** The label cache is changed through ipv4_addr only *)

Lemma keeps_ret {A} I (a : A) : keeps I (ret a).
Proof. by intros st. Qed.

Lemma keeps_bind {A B} I (m : M A) (k : A → M B) :
  keeps I m → (∀ a, keeps I (k a)) → keeps I (bind m k).
Proof.
  intros Hm Hk st HI. unfold bind. specialize (Hm st HI).
  destruct (m st) as [a st1| |]; [|done..]. by apply Hk.
Qed.

Section ResolverKeeps.
Variable I : gmap string (list string) → Prop.
Hypothesis keeps_ipv4_addr : ∀ s, keeps I (ipv4_addr s).
Variable udp : list Query → Query → option Message.
Variable rec : string → Z → list string → M (option Message).
Hypothesis keeps_rec : ∀ t q s, keeps I (rec t q s).

Lemma keeps_glue_addresses section address_list :
  keeps I (glue_addresses section address_list).
Proof using keeps_ipv4_addr.
  revert address_list.
  induction section as [|record rest IH]; intros address_list; simpl.
  - apply keeps_ret.
  - apply keeps_bind; [apply keeps_ipv4_addr|]. intros l. apply IH.
Qed.

Lemma keeps_try_addresses t q section : keeps I (try_addresses rec t q section).
Proof using keeps_ipv4_addr keeps_rec.
  induction section as [|each_answer rest IH]; simpl.
  - apply keeps_ret.
  - apply keeps_bind; [apply keeps_ipv4_addr|]. intros ns.
    apply keeps_bind; [apply keeps_rec|]. intros [r|]; [apply keeps_ret|done].
Qed.

Lemma keeps_chase_names t q ns_list : keeps I (chase_names rec t q ns_list).
Proof using keeps_ipv4_addr keeps_rec.
  induction ns_list as [|each_name rest IH]; simpl.
  - apply keeps_ret.
  - apply keeps_bind; [apply keeps_rec|]. intros [m|]; [|done].
    apply keeps_bind; [apply keeps_try_addresses|].
    intros [v|]; [apply keeps_ret|done].
Qed.

Lemma keeps_walk_authority t q section ns_list :
  keeps I (walk_authority rec t q section ns_list).
Proof using keeps_ipv4_addr keeps_rec.
  revert ns_list.
  induction section as [|auth_list rest IH]; intros ns_list; simpl.
  - apply keeps_ret.
  - destruct (scan_auth _ _) as [ns_list'|]; [|apply keeps_ret].
    apply keeps_bind; [apply keeps_chase_names|].
    intros [v|]; [apply keeps_ret|apply IH].
Qed.

Lemma keeps_try_servers qname q t servers :
  keeps I (try_servers udp rec qname q t servers).
Proof using keeps_ipv4_addr keeps_rec.
  revert t. induction servers as [|each_server rest IH]; intros t.
  - apply keeps_ret.
  - intros st HI. simpl.
    assert (I (dict_cache (record_query (mkQuery qname q each_server) st)))
      as HI1 by done.
    destruct (udp _ _) as [response|]; [|by apply IH].
    destruct (0 <? length (answer response))%nat.
    { destruct (scan_answer _ _ _); [done|by apply keeps_rec|by apply IH]. }
    destruct (0 <? length (additional response))%nat.
    { revert HI1. apply keeps_bind; [apply keeps_glue_addresses|].
      intros l. apply keeps_rec. }
    revert HI1. apply keeps_bind; [apply keeps_walk_authority|].
    intros [v|]; [apply keeps_ret|apply IH].
Qed.

End ResolverKeeps.

Lemma keeps_recursive_resolver I udp fuel t q servers :
  (∀ s, keeps I (ipv4_addr s)) →
  keeps I (recursive_resolver udp fuel t q servers).
Proof.
  intros HI. revert t q servers.
  induction fuel as [|fuel IH]; intros t q servers; [by intros st|].
  simpl. unfold resolver_body.
  destruct servers; [apply keeps_ret|by apply keeps_try_servers].
Qed.

Lemma keeps_collect_results I udp fuel name :
  (∀ s, keeps I (ipv4_addr s)) → keeps I (collect_results udp fuel name).
Proof.
  intros HI. unfold collect_results.
  assert (∀ t q, keeps I (lookup udp fuel t q)) as Hl.
  { intros t q st Hst. unfold lookup.
    destruct (lookup_servers _ _); [by apply keeps_recursive_resolver|done]. }
  repeat (apply keeps_bind; [apply Hl|]; intros ?). apply keeps_ret.
Qed.

Lemma ipv4_addr_raises_state s st e st' :
  ipv4_addr s st = Raises e st' → st' = st.
Proof.
  rewrite ipv4_addr_closed_form.
  destruct (ipv4_effect _ _) as [[l c]|]; [done|]. by intros [= <-].
Qed.

Lemma keeps_NoDup_ipv4_addr s : keeps cache_NoDup (ipv4_addr s).
Proof.
  intros st Hst. destruct (ipv4_addr s st) as [l st'|e st'|] eqn:E; [| |done].
  - exact (ipv4_addr_NoDup _ _ _ _ E Hst).
  - apply ipv4_addr_raises_state in E as ->. done.
Qed.

(** Any property of the label cache that each run of [ipv4_addr] keeps is
    kept by a whole collection, however it ends: the walker, [lookup] and
    [collect_results] write to the cache through [ipv4_addr] alone.  In
    particular no cached server list ever gets the same address twice. *)
Theorem collect_results_keeps_cache udp fuel name st
    (I : gmap string (list string) → Prop) :
  (∀ s st0, I (dict_cache st0) →
     match ipv4_addr s st0 with
     | Returns _ st1 | Raises _ st1 => I (dict_cache st1)
     | Diverges => True
     end) →
  (I (dict_cache st) →
   match collect_results udp fuel name st with
   | Returns _ st' | Raises _ st' => I (dict_cache st')
   | Diverges => True
   end)
  ∧ (cache_NoDup (dict_cache st) →
     match collect_results udp fuel name st with
     | Returns _ st' | Raises _ st' => cache_NoDup (dict_cache st')
     | Diverges => True
     end).
Proof.
  intros HI. split.
  - by apply keeps_collect_results.
  - apply keeps_collect_results, keeps_NoDup_ipv4_addr.
Qed.

Lemma collect_results_keeps_cache_witness :
  match collect_results referral_udp 2 "example.com" initial_state with
  | Returns _ st' | Raises _ st' => cache_NoDup (dict_cache st')
  | Diverges => True
  end.
Proof.
  refine (proj1 (collect_results_keeps_cache referral_udp 2 "example.com"
                   initial_state cache_NoDup _) _).
  - intros s. apply keeps_NoDup_ipv4_addr.
  - intros k l. simpl. rewrite lookup_empty. discriminate.
Defined.

(** ** When the walker can raise *)

Lemma ipv4_addr_owner_ok rs st :
  owner_ok rs = true → ∃ l st', ipv4_addr (rrset_to_text rs) st = Returns l st'.
Proof.
  unfold owner_ok. intros [[Hne Hsp]%andb_prop Hdot]%andb_prop.
  apply negb_true_iff in Hne, Hdot. apply String.eqb_neq in Hne.
  destruct (rrset_to_text_owner rs) as [rest ->].
  destruct (ipv4_addr_by_key (rr_name rs) rest st Hne Hsp) as [->|[addr ->]];
    [eauto|].
  destruct (cache_key (rr_name rs)) eqn:E; [eauto|].
  apply cache_key_None_iff in E. congruence.
Qed.

Lemma glue_addresses_owner_ok section address_list st :
  forallb owner_ok section = true →
  ∃ l st', glue_addresses section address_list st = Returns l st'.
Proof.
  revert address_list st.
  induction section as [|record rest IH]; intros address_list st; simpl.
  - eauto.
  - intros [Hr Hrest]%andb_prop.
    destruct (ipv4_addr_owner_ok record st Hr) as (l & st1 & Hl).
    unfold bind. rewrite Hl. by apply IH.
Qed.

Section ResolverSafe.
Variable udp : list Query → Query → option Message.
Hypothesis udp_ok : ∀ h q m, udp h q = Some m → owners_ok m = true.
Variable rec : string → Z → list string → M (option Message).
Hypothesis rec_safe : ∀ t q s, safe (rec t q s).

Lemma try_addresses_safe t q section :
  forallb owner_ok section = true → safe_flow (try_addresses rec t q section).
Proof using rec_safe.
  induction section as [|each_answer rest IH]; intros Hok st; [done|].
  simpl in Hok |- *. apply andb_prop in Hok as [Hr Hrest].
  destruct (ipv4_addr_owner_ok each_answer st Hr) as (l & st1 & Hl).
  unfold bind. rewrite Hl. pose proof (rec_safe t q l st1) as Hrec.
  destruct (rec t q l st1) as [[r|] st2| |]; [done| |done..].
  by apply IH.
Qed.

Lemma chase_names_safe t q ns_list : safe_flow (chase_names rec t q ns_list).
Proof using rec_safe.
  induction ns_list as [|each_name rest IH]; intros st; [done|].
  simpl. unfold bind. pose proof (rec_safe each_name 1 ROOT_SERVERS st) as Hrec.
  destruct (rec each_name 1 ROOT_SERVERS st) as [[m|] st1| |];
    [|apply IH|done..].
  apply andb_prop in Hrec as [Hans _].
  pose proof (try_addresses_safe t q (answer m) Hans st1) as Hta.
  destruct (try_addresses rec t q (answer m) st1) as [[v|] st2| |];
    [done|apply IH|done..].
Qed.

Lemma walk_authority_safe t q section ns_list :
  safe_flow (walk_authority rec t q section ns_list).
Proof using rec_safe.
  revert ns_list.
  induction section as [|auth_list rest IH]; intros ns_list st; [done|].
  simpl. destruct (scan_auth _ _) as [ns_list'|]; [|done].
  unfold bind. pose proof (chase_names_safe t q ns_list' st) as Hch.
  destruct (chase_names rec t q ns_list' st) as [[v|] st1| |];
    [done|apply IH|done..].
Qed.

Lemma try_servers_safe qname q t servers :
  safe (try_servers udp rec qname q t servers).
Proof using udp_ok rec_safe.
  revert t. induction servers as [|each_server rest IH]; intros t st; [done|].
  simpl. destruct (udp _ _) as [response|] eqn:Hudp; [|apply IH].
  apply udp_ok in Hudp.
  destruct (0 <? length (answer response))%nat.
  { destruct (scan_answer _ _ _); [done|apply rec_safe|apply IH]. }
  destruct (0 <? length (additional response))%nat.
  { apply andb_prop in Hudp as [_ Hadd].
    destruct (glue_addresses_owner_ok (additional response) []
                (record_query (mkQuery qname q each_server) st) Hadd)
      as (l & st1 & Hl).
    unfold bind. rewrite Hl. apply rec_safe. }
  unfold bind.
  pose proof (walk_authority_safe t q (authority response) []
                (record_query (mkQuery qname q each_server) st)) as Hw.
  destruct (walk_authority _ _ _ _ _ _) as [[[r|]|] st1| |];
    [done|done|apply IH|done..].
Qed.

End ResolverSafe.

Lemma recursive_resolver_safe udp fuel t q servers :
  (∀ h x m, udp h x = Some m → owners_ok m = true) →
  safe (recursive_resolver udp fuel t q servers).
Proof.
  intros Hudp. revert t q servers.
  induction fuel as [|fuel IH]; intros t q servers; [by intros st|].
  simpl. unfold resolver_body. destruct servers; [by intros st|].
  by apply try_servers_safe.
Qed.

Lemma lookup_raises_inv udp fuel t q st e st' :
  (∀ h x m, udp h x = Some m → owners_ok m = true) →
  lookup udp fuel t q st = Raises e st' → no_dot t = true.
Proof.
  intros Hudp. rewrite lookup_by_key.
  destruct (cache_key t) as [key|] eqn:E; [|intros _; by apply cache_key_None_iff].
  intros H. pose proof (recursive_resolver_safe udp fuel t q
    (default ROOT_SERVERS (dict_cache st !! key)) Hudp st) as Hs.
  by rewrite H in Hs.
Qed.

(** When every response carries owner names as dnspython prints them (not
    empty, without whitespace, dot-terminated), the walker never raises
    IndexError, the one exception that the code of the resolver itself can
    raise ([domain[-2]] and [tld[-2]]), whatever the responses hold
    otherwise; and [collect_results] raises IndexError only in one way: its
    CNAME sub-query returned and left a working target without any dot.
    (Exceptions raised inside dnspython calls, as [make_query] on a text it
    rejects, are not part of this model.) *)
Theorem raises_only_on_dot_free_target udp fuel :
  (∀ h q m, udp h q = Some m → owners_ok m = true) →
  (∀ target_name qtype servers st st',
     recursive_resolver udp fuel target_name qtype servers st
     ≠ Raises IndexError st')
  ∧ (∀ name st st',
       collect_results udp fuel name st = Raises IndexError st' →
       ∃ r1 st1,
         lookup udp fuel (name_from_text name) 5 st = Returns r1 st1
         ∧ no_dot (cname_target (name_from_text name) r1) = true).
Proof.
  intros Hudp. split.
  - intros t q servers st st' H.
    pose proof (recursive_resolver_safe udp fuel t q servers Hudp st) as Hs.
    by rewrite H in Hs.
  - intros name st st'. unfold collect_results.
    intros [H|(r1 & st1 & H1 & H)]%bind_Raises.
    { apply lookup_raises_inv in H; [|done].
      destruct (cache_key_name_from_text name) as [k Hk].
      apply cache_key_None_iff in H. congruence. }
    exists r1, st1. split; [done|].
    apply bind_Raises in H as [H|(r2 & st2 & _ & H)];
      [by eapply lookup_raises_inv|].
    apply bind_Raises in H as [H|(r3 & st3 & _ & H)];
      [by eapply lookup_raises_inv|].
    apply bind_Raises in H as [H|(r4 & st4 & _ & H)];
      [by eapply lookup_raises_inv|done].
Qed.

Lemma raises_only_on_dot_free_target_witness :
  recursive_resolver referral_udp 2 "example.com." 1 ROOT_SERVERS initial_state
  ≠ Raises IndexError initial_state.
Proof.
  refine (proj1 (raises_only_on_dot_free_target referral_udp 2 _) _ _ _ _ _).
  intros h q m. unfold referral_udp, scripted. simpl.
  repeat case_decide; intros [= <-]; reflexivity.
Defined.

(** ** Single steps of the server loop *)

Lemma glue_addresses_none section address_list st :
  Forall (λ rs, has_A (PyStr.split_ws (rrset_to_text rs)) = false) section →
  glue_addresses section address_list st = Returns address_list st.
Proof.
  intros Hall. revert address_list.
  induction Hall as [|rs rest Hrs _ IH]; intros address_list; [done|].
  simpl. unfold bind. rewrite ipv4_addr_closed_form. unfold ipv4_effect.
  rewrite Hrs. replace (mkState (dict_cache st) (sent st)) with st by by destruct st.
  by rewrite app_nil_r.
Qed.

(** A referral whose additional section holds no RRset with a word [A] in
    its text (AAAA glue only, for instance) ends the call with [None] at
    once: the candidate list of the recursion is empty, so neither the
    name-server names of the authority section nor the remaining candidates
    are tried.  The cache is left as it was. *)
Theorem glue_without_address_ends udp fuel qname qtype target_name each_server
    rest st response :
  udp (sent st) (mkQuery qname qtype each_server) = Some response →
  answer response = [] →
  additional response ≠ [] →
  Forall (λ rs, has_A (PyStr.split_ws (rrset_to_text rs)) = false)
    (additional response) →
  try_servers udp (recursive_resolver udp (S fuel)) qname qtype target_name
    (each_server :: rest) st
  = Returns None
      (mkState (dict_cache st) (sent st ++ [mkQuery qname qtype each_server])).
Proof.
  intros Hudp Hans Hadd Hall.
  rewrite (glue_referral_step _ _ _ _ _ _ _ _ response) by done.
  unfold bind. by rewrite glue_addresses_none.
Qed.

Lemma glue_without_address_ends_witness :
  try_servers
    (scripted
       [(mkQuery "www.example.com." 1 "203.0.113.1",
         mkMessage [] [rrset "example.com." NS_TYPE ["ns1.example.net."]]
           [rrset "ns1.example.net." AAAA_TYPE ["2001:db8::53"]])])
    (recursive_resolver
       (scripted
          [(mkQuery "www.example.com." 1 "203.0.113.1",
            mkMessage [] [rrset "example.com." NS_TYPE ["ns1.example.net."]]
              [rrset "ns1.example.net." AAAA_TYPE ["2001:db8::53"]])]) 1)
    "www.example.com." 1 "www.example.com." ["203.0.113.1"; "203.0.113.2"]
    initial_state
  = Returns None (mkState ∅ [mkQuery "www.example.com." 1 "203.0.113.1"]).
Proof.
  apply (glue_without_address_ends _ 0%nat _ _ _ _ _ initial_state
           (mkMessage [] [rrset "example.com." NS_TYPE ["ns1.example.net."]]
              [rrset "ns1.example.net." AAAA_TYPE ["2001:db8::53"]])).
  - reflexivity.
  - reflexivity.
  - discriminate.
  - repeat constructor.
Defined.

(** An answer section that is not empty but holds no record of the
    requested type and no CNAME record is passed over: the loop goes on
    with the remaining candidates, still sending the original query, but
    its working name is now the text of the last answer record without its
    final character. *)
Theorem unusable_answer_next_candidate udp fuel qname qtype target_name
    each_server rest st response last_rd :
  udp (sent st) (mkQuery qname qtype each_server) = Some response →
  unusable qtype (records (answer response)) →
  last (records (answer response)) = Some last_rd →
  try_servers udp (recursive_resolver udp fuel) qname qtype target_name
    (each_server :: rest) st
  = try_servers udp (recursive_resolver udp fuel) qname qtype
      (PyStr.drop_last (rd_text last_rd)) rest
      (mkState (dict_cache st) (sent st ++ [mkQuery qname qtype each_server])).
Proof.
  intros Hudp Hun Hlast. simpl. rewrite Hudp.
  assert (last_rd ∈ records (answer response)) as Hin.
  { apply last_Some in Hlast as [l' ->]. set_solver. }
  rewrite (records_nonempty_section _ _ Hin).
  rewrite <- (app_nil_r (records (answer response))).
  rewrite scan_answer_skip by done. simpl.
  by rewrite fold_left_last, Hlast.
Qed.

Lemma unusable_answer_next_candidate_witness :
  try_servers
    (scripted
       [(mkQuery "www.example.com." 28 "203.0.113.1",
         mkMessage [rrset "www.example.com." A_TYPE ["192.0.2.10"]] [] [])])
    (recursive_resolver
       (scripted
          [(mkQuery "www.example.com." 28 "203.0.113.1",
            mkMessage [rrset "www.example.com." A_TYPE ["192.0.2.10"]] [] [])]) 1)
    "www.example.com." 28 "www.example.com." ["203.0.113.1"; "203.0.113.2"]
    initial_state
  = try_servers
      (scripted
         [(mkQuery "www.example.com." 28 "203.0.113.1",
           mkMessage [rrset "www.example.com." A_TYPE ["192.0.2.10"]] [] [])])
      (recursive_resolver
         (scripted
            [(mkQuery "www.example.com." 28 "203.0.113.1",
              mkMessage [rrset "www.example.com." A_TYPE ["192.0.2.10"]] [] [])]) 1)
      "www.example.com." 28 "192.0.2.1" ["203.0.113.2"]
      (mkState ∅ [mkQuery "www.example.com." 28 "203.0.113.1"]).
Proof.
  apply (unusable_answer_next_candidate _ 1%nat _ _ _ _ _ initial_state
           (mkMessage [rrset "www.example.com." A_TYPE ["192.0.2.10"]] [] [])
           (rdata A_TYPE "192.0.2.10")).
  - reflexivity.
  - repeat constructor; discriminate.
  - reflexivity.
Defined.

(** A response with nothing to act on (no answer, no additional record, no
    authority record) counts like a failed candidate: the loop goes on with
    the remaining candidates, the working name unchanged. *)
Theorem empty_response_next_candidate udp fuel qname qtype target_name
    each_server rest st response :
  udp (sent st) (mkQuery qname qtype each_server) = Some response →
  answer response = [] →
  additional response = [] →
  Forall (λ rs, rr_items rs = []) (authority response) →
  try_servers udp (recursive_resolver udp fuel) qname qtype target_name
    (each_server :: rest) st
  = try_servers udp (recursive_resolver udp fuel) qname qtype target_name rest
      (mkState (dict_cache st) (sent st ++ [mkQuery qname qtype each_server])).
Proof.
  intros Hudp Hans Hadd Hauth. simpl. rewrite Hudp, Hans, Hadd. simpl.
  unfold bind.
  rewrite <- (app_nil_r (authority response)).
  by rewrite walk_authority_skip_empty.
Qed.

Lemma empty_response_next_candidate_witness :
  try_servers
    (scripted [(mkQuery "www.example.com." 1 "203.0.113.1", mkMessage [] [] [])])
    (recursive_resolver
       (scripted [(mkQuery "www.example.com." 1 "203.0.113.1", mkMessage [] [] [])])
       1)
    "www.example.com." 1 "www.example.com." ["203.0.113.1"; "203.0.113.2"]
    initial_state
  = try_servers
      (scripted [(mkQuery "www.example.com." 1 "203.0.113.1", mkMessage [] [] [])])
      (recursive_resolver
         (scripted
            [(mkQuery "www.example.com." 1 "203.0.113.1", mkMessage [] [] [])]) 1)
      "www.example.com." 1 "www.example.com." ["203.0.113.2"]
      (mkState ∅ [mkQuery "www.example.com." 1 "203.0.113.1"]).
Proof.
  apply (empty_response_next_candidate _ 1%nat _ _ _ _ _ initial_state
           (mkMessage [] [] [])).
  - reflexivity.
  - reflexivity.
  - reflexivity.
  - constructor.
Defined.

(** ** main: the arguments, the result cache and the output *)

#[local] Set Warnings "-clear-no-such-hyp".

Lemma dedup_args_acc names acc :
  ∃ l, dedup_args names acc = acc ++ l ∧ l `sublist_of` names.
Proof.
  revert acc. induction names as [|x names IH]; intros acc; simpl.
  - exists []. by rewrite app_nil_r.
  - case_bool_decide.
    + destruct (IH acc) as (l & -> & Hl). exists l. split; [done|].
      by apply sublist_cons.
    + destruct (IH (acc ++ [x])) as (l & -> & Hl). exists (x :: l).
      split; [by rewrite <- app_assoc|]. by apply sublist_skip.
Qed.

Lemma dedup_args_elem names acc x :
  x ∈ dedup_args names acc ↔ x ∈ acc ∨ x ∈ names.
Proof.
  revert acc. induction names as [|y names IH]; intros acc; simpl.
  - split; [by left|]. intros [H|H]; [done|]. by apply not_elem_of_nil in H.
  - rewrite elem_of_cons. case_bool_decide as Hy; rewrite IH.
    + split; [intros [H|H]; auto|]. intros [H|[->|H]]; auto.
    + rewrite elem_of_app, list_elem_of_singleton.
      split; [intros [[H|H]|H]; auto|]. intros [H|[H|H]]; auto.
Qed.

Lemma dedup_args_NoDup names acc : NoDup acc → NoDup (dedup_args names acc).
Proof.
  revert acc. induction names as [|y names IH]; intros acc Hacc; simpl; [done|].
  case_bool_decide; [by apply IH|]. apply IH, NoDup_app.
  split; [done|]. split; [set_solver|apply NoDup_singleton].
Qed.

Lemma dedup_args_id names acc :
  NoDup (acc ++ names) → dedup_args names acc = acc ++ names.
Proof.
  revert acc. induction names as [|y names IH]; intros acc Hnd; simpl.
  - by rewrite app_nil_r.
  - apply NoDup_app in Hnd as Hparts. destruct Hparts as (_ & Hdisj & _).
    case_bool_decide as Hin; [exfalso; eapply Hdisj; [done|set_solver]|].
    rewrite IH; [by rewrite <- app_assoc|]. by rewrite <- app_assoc.
Qed.

Lemma dedup_args_elem_nil names x : x ∈ dedup_args names [] ↔ x ∈ names.
Proof.
  rewrite dedup_args_elem. split; [|by right].
  intros [H|H]; [|done]. by apply not_elem_of_nil in H.
Qed.

Lemma dedup_args_app l1 l2 acc :
  dedup_args (l1 ++ l2) acc = dedup_args l2 (dedup_args l1 acc).
Proof.
  revert acc. induction l1 as [|x l1 IH]; intros acc; [done|].
  simpl. by case_bool_decide.
Qed.

Lemma dedup_args_snoc pre x :
  dedup_args (pre ++ [x]) []
  = if bool_decide (x ∈ pre) then dedup_args pre []
    else dedup_args pre [] ++ [x].
Proof.
  rewrite dedup_args_app. simpl.
  destruct (decide (x ∈ pre)) as [Hin|Hin].
  - rewrite !bool_decide_eq_true_2; [done|done|by apply dedup_args_elem_nil].
  - rewrite !bool_decide_eq_false_2; [done|done|by rewrite dedup_args_elem_nil].
Qed.

(** The list of arguments that [main] serves holds every argument exactly
    once, in the order of the first occurrences: what the arguments up to
    some position give is what the arguments before it give, with the
    argument at that position appended when it has not occurred before,
    and the arguments after it only append to that.  Arguments without
    repetition are served as given. *)
Theorem dedup_args_spec (names : list string) :
  NoDup (dedup_args names [])
  ∧ (∀ x, x ∈ dedup_args names [] ↔ x ∈ names)
  ∧ (∀ pre x post, names = pre ++ x :: post →
       dedup_args (pre ++ [x]) []
       = (if bool_decide (x ∈ pre) then dedup_args pre []
          else dedup_args pre [] ++ [x])
       ∧ dedup_args (pre ++ [x]) [] `prefix_of` dedup_args names [])
  ∧ dedup_args names [] `sublist_of` names
  ∧ (NoDup names → dedup_args names [] = names).
Proof.
  split; [apply dedup_args_NoDup, NoDup_nil_2|].
  split; [apply dedup_args_elem_nil|].
  split.
  { intros pre x post ->. split; [apply dedup_args_snoc|].
    replace (pre ++ x :: post) with ((pre ++ [x]) ++ post)
      by by rewrite <- app_assoc.
    rewrite (dedup_args_app (pre ++ [x]) post).
    destruct (dedup_args_acc post (dedup_args (pre ++ [x]) [])) as (l & -> & _).
    by exists l. }
  split; [by destruct (dedup_args_acc names []) as (l & -> & Hl)|].
  intros Hnd. by rewrite dedup_args_id.
Qed.

Lemma dedup_args_spec_witness :
  dedup_args ["example.com"; "example.org"; "example.com"] []
  = ["example.com"; "example.org"].
Proof.
  refine (eq_trans
    (proj1 (proj1 (proj2 (proj2
       (dedup_args_spec ["example.com"; "example.org"; "example.com"])))
       ["example.com"; "example.org"] "example.com" [] eq_refl)) _).
  reflexivity.
Defined.

Lemma main_unfold udp fuel names p :
  main udp fuel names p = serve_all udp fuel (dedup_args names []) p.
Proof.
  unfold main. destruct names as [|x [|y names]]; try done.
Qed.

(** The three branches of [main] do the same thing: whatever the number of
    arguments, the arguments are served one by one after repetitions have
    been dropped. *)
Theorem main_serves_distinct_names udp fuel names p :
  main udp fuel names p = serve_all udp fuel (dedup_args names []) p.
Proof. apply main_unfold. Qed.

Lemma serve_Returns_inv udp fuel name p results p' :
  serve udp fuel name p = Returns results p' →
  domain_cache p ⊆ domain_cache p'
  ∧ domain_cache p' !! name = Some results
  ∧ stdout p' = stdout p ++ print_results results
  ∧ (∀ k, is_Some (domain_cache p' !! k) →
       is_Some (domain_cache p !! k) ∨ k = name).
Proof.
  unfold serve. destruct (domain_cache p !! name) as [stored|] eqn:E.
  - intros [= <- <-]. simpl. eauto.
  - destruct (collect_results _ _ _ _) as [r st| |]; [|done..].
    intros [= <- <-]. simpl. split; [by apply insert_subseteq|].
    split; [apply lookup_insert_eq|]. split; [done|].
    intros k. destruct (decide (k = name)) as [->|Hne]; [eauto|].
    rewrite lookup_insert_ne by done. eauto.
Qed.

Lemma serve_Raises_inv udp fuel name p e p' :
  serve udp fuel name p = Raises e p' →
  domain_cache p' = domain_cache p ∧ stdout p' = stdout p
  ∧ domain_cache p !! name = None.
Proof.
  unfold serve. destruct (domain_cache p !! name) as [stored|]; [done|].
  destruct (collect_results _ _ _ _) as [r st|e1 st|]; [done| |done].
  by intros [= <-].
Qed.

Lemma serve_all_Returns_inv udp fuel names p p' :
  serve_all udp fuel names p = Returns tt p' →
  domain_cache p ⊆ domain_cache p'
  ∧ (∀ n, n ∈ names → is_Some (domain_cache p' !! n))
  ∧ (∃ out, stdout p' = stdout p ++ out)
  ∧ (∀ k, is_Some (domain_cache p' !! k) →
       is_Some (domain_cache p !! k) ∨ k ∈ names).
Proof.
  revert p. induction names as [|name names IH]; intros p; simpl.
  - intros [= <-]. split; [done|]. split; [by intros n ?%not_elem_of_nil|].
    split; [exists []; by rewrite app_nil_r|]. eauto.
  - destruct (serve udp fuel name p) as [r p1| |] eqn:E; [|done..].
    intros (Hsub & Hall & (out & Hout) & Hdom)%IH.
    apply serve_Returns_inv in E as (Hsub1 & Hname & Hout1 & Hdom1).
    split; [by etrans|]. split.
    { intros n [->|Hn]%elem_of_cons; [|by apply Hall].
      exists r. by eapply lookup_weaken. }
    split; [exists (print_results r ++ out); by rewrite Hout, Hout1, app_assoc|].
    intros k [Hk|Hk]%Hdom; [|set_solver].
    apply Hdom1 in Hk as [Hk| ->]; [by left|set_solver].
Qed.

(** After a run of [main] that ends normally, every argument has an entry
    in the result cache, every entry that existed before is still there
    with the same record set, every new entry belongs to an argument, and
    the output printed before is kept in front. *)
Theorem main_fills_result_cache udp fuel names p p' :
  main udp fuel names p = Returns tt p' →
  domain_cache p ⊆ domain_cache p'
  ∧ (∀ n, n ∈ names → is_Some (domain_cache p' !! n))
  ∧ (∃ out, stdout p' = stdout p ++ out)
  ∧ (∀ k, is_Some (domain_cache p' !! k) →
       is_Some (domain_cache p !! k) ∨ k ∈ names).
Proof.
  rewrite main_unfold.
  intros (Hsub & Hall & Hout & Hdom)%serve_all_Returns_inv.
  split; [done|]. split; [intros n Hn; apply Hall; by apply dedup_args_elem_nil|].
  split; [done|]. intros k [Hk|Hk]%Hdom; [by left|right].
  by apply dedup_args_elem_nil.
Qed.

Lemma main_fills_result_cache_witness :
  ∃ p',
    main unreachable 1 ["example.com"; "example.org"; "example.com"]
      initial_process = Returns tt p'
    ∧ (∀ n, n ∈ ["example.com"; "example.org"; "example.com"] →
         is_Some (domain_cache p' !! n)).
Proof.
  eexists. split; [vm_compute; reflexivity|].
  refine (proj1 (proj2 (main_fills_result_cache unreachable 1 _
                          initial_process _ _))).
  vm_compute. reflexivity.
Defined.

Lemma serve_all_cached udp fuel names p :
  (∀ n, n ∈ names → is_Some (domain_cache p !! n)) →
  serve_all udp fuel names p
  = Returns tt
      (mkProcess (resolver p) (domain_cache p)
         (stdout p
          ++ flat_map (λ n, from_option print_results [] (domain_cache p !! n))
               names)).
Proof.
  revert p. induction names as [|name names IH]; intros p Hall; simpl.
  - rewrite app_nil_r. by destruct p.
  - destruct (Hall name) as [r Hr]; [set_solver|].
    unfold serve. rewrite Hr. rewrite IH by (intros n Hn; apply Hall; set_solver).
    simpl. by rewrite app_assoc.
Qed.

(** When every argument already has an entry in the result cache, [main]
    only prints: for each distinct argument, in order, the lines of its
    stored record set.  The resolver state is untouched, so no query is
    sent, whatever the transport and the recursion budget. *)
Theorem main_all_cached_only_prints udp fuel names p :
  (∀ n, n ∈ names → is_Some (domain_cache p !! n)) →
  main udp fuel names p
  = Returns tt
      (mkProcess (resolver p) (domain_cache p)
         (stdout p
          ++ flat_map (λ n, from_option print_results [] (domain_cache p !! n))
               (dedup_args names []))).
Proof.
  intros Hall. rewrite main_unfold. apply serve_all_cached.
  intros n Hn. apply Hall. by apply dedup_args_elem_nil.
Qed.

Lemma main_all_cached_only_prints_witness :
  main unreachable 0 ["example.com"; "example.com"]
    (mkProcess initial_state
       {[ "example.com" :=
            mkRecordSet [] [mkAddr "example.com." "93.184.216.34"] [] [] ]} [])
  = Returns tt
      (mkProcess initial_state
         {[ "example.com" :=
              mkRecordSet [] [mkAddr "example.com." "93.184.216.34"] [] [] ]}
         ["example.com. has address 93.184.216.34"]).
Proof.
  refine (eq_trans (main_all_cached_only_prints unreachable 0 _ _ _) _).
  - intros n Hn. assert (n = "example.com") as -> by set_solver.
    simpl. rewrite lookup_singleton_eq. eauto.
  - vm_compute. reflexivity.
Defined.

Lemma serve_all_app udp fuel l1 l2 p :
  serve_all udp fuel (l1 ++ l2) p
  = match serve_all udp fuel l1 p with
    | Returns _ p1 => serve_all udp fuel l2 p1
    | Raises e p1 => Raises e p1
    | Diverges => Diverges
    end.
Proof.
  revert p. induction l1 as [|name l1 IH]; intros p; [done|].
  simpl. destruct (serve udp fuel name p) as [r p1|e p1|]; [apply IH|done..].
Qed.

(** When the collection for one argument raises, [main] ends by that
    exception at once: the result cache and the output are exactly what
    the arguments served before it left, so nothing is stored and nothing
    is printed for the failing argument, and the arguments after it are
    neither resolved nor printed. *)
Theorem main_raise_stores_nothing udp fuel names p served failing later p1 e st :
  dedup_args names [] = served ++ failing :: later →
  serve_all udp fuel served p = Returns tt p1 →
  domain_cache p1 !! failing = None →
  collect_results udp fuel failing (resolver p1) = Raises e st →
  main udp fuel names p
  = Raises e (mkProcess st (domain_cache p1) (stdout p1)).
Proof.
  intros Hnames Hserved Hmiss Hraise.
  rewrite main_unfold, Hnames, serve_all_app, Hserved. simpl.
  unfold serve. by rewrite Hmiss, Hraise.
Qed.

Lemma main_raise_stores_nothing_witness :
  ∃ st,
    main raise_udp 1 ["example.com"; "alias.example.org"; "example.net"]
      initial_process
    = Raises IndexError
        (mkProcess st
           {[ "example.com" :=
                mkRecordSet [] [mkAddr "example.com." "93.184.216.34"] [] [] ]}
           ["example.com. has address 93.184.216.34"])
    ∧ Forall (λ q, q_name q ≠ "example.net.") (sent st).
Proof.
  eexists. split.
  - refine (main_raise_stores_nothing raise_udp 1
              ["example.com"; "alias.example.org"; "example.net"]
              initial_process
              ["example.com"] "alias.example.org" ["example.net"]
              (mkProcess _
                 {[ "example.com" :=
                      mkRecordSet [] [mkAddr "example.com." "93.184.216.34"] [] [] ]}
                 ["example.com. has address 93.184.216.34"])
              IndexError _ eq_refl _ eq_refl _).
    + vm_compute. reflexivity.
    + vm_compute. reflexivity.
  - apply (bool_decide_eq_true_1 (Forall _ _)). vm_compute. reflexivity.
Defined.

(** [print_results] writes one line per record of the record set, and
    nothing for an empty record set. *)
Theorem print_results_line_count results :
  length (print_results results)
  = (length (rs_CNAME results) + length (rs_A results)
     + length (rs_AAAA results) + length (rs_MX results))%nat
  ∧ (print_results results = [] ↔
     rs_CNAME results = [] ∧ rs_A results = [] ∧ rs_AAAA results = []
     ∧ rs_MX results = []).
Proof.
  unfold print_results. split.
  - rewrite !length_app, !length_map. lia.
  - destruct results as [[|c cs] [|a as_] [|b bs] [|m ms]]; simpl; split;
      try done; by intros (? & ? & ? & ?).
Qed.

Lemma print_results_line_count_witness :
  print_results (mkRecordSet [] [] [] []) = [].
Proof.
  apply (proj2 (print_results_line_count (mkRecordSet [] [] [] []))).
  repeat split.
Defined.

(** ** Referrals without glue, stale cache entries, and the state across main *)




(** Once the key of a name is cached, [lookup] tries the cached servers
    only: for a target text that dnspython accepts, when all of them fail
    it returns [None] without falling back to the root servers. *)
Theorem lookup_cached_servers_only udp fuel target_name qtype st key servers :
  accepted_text target_name = true →
  cache_key target_name = Some key →
  dict_cache st !! key = Some servers →
  all_fail udp (sent st)
    (map (mkQuery (name_from_text target_name) qtype) servers) →
  lookup udp (S fuel) target_name qtype st
  = Returns None
      (mkState (dict_cache st)
         (sent st ++ map (mkQuery (name_from_text target_name) qtype) servers)).
Proof.
  intros _ Hkey Hservers Hfail. rewrite lookup_by_key, Hkey, Hservers. simpl.
  by apply resolver_all_fail.
Qed.

Lemma lookup_cached_servers_only_witness :
  lookup unreachable 1 "www.example.net." 1
    (mkState {[ "net" := ["192.5.6.30"] ]} [])
  = Returns None
      (mkState {[ "net" := ["192.5.6.30"] ]}
         [mkQuery "www.example.net." 1 "192.5.6.30"]).
Proof.
  refine (lookup_cached_servers_only unreachable 0 "www.example.net." 1
            (mkState {[ "net" := ["192.5.6.30"] ]} []) "net" ["192.5.6.30"]
            eq_refl eq_refl eq_refl _).
  simpl. split; reflexivity.
Defined.

Lemma serve_all_state_le udp fuel names p :
  match serve_all udp fuel names p with
  | Returns _ p' | Raises _ p' => state_le (resolver p) (resolver p')
  | Diverges => True
  end.
Proof.
  revert p. induction names as [|name names IH]; intros p; simpl.
  - apply state_le_refl.
  - unfold serve. destruct (domain_cache p !! name) as [stored|].
    + apply (IH (mkProcess (resolver p) (domain_cache p) _)).
    + pose proof (grows_collect_results udp fuel name (resolver p)) as Hg.
      destruct (collect_results udp fuel name (resolver p)) as [r st|e st|];
        [|done..].
      specialize (IH (mkProcess st (<[name:=r]> (domain_cache p))
                        (stdout p ++ print_results r))).
      destruct (serve_all _ _ _ _); [| |done]; by eapply state_le_trans.
Qed.

(** Across a whole run of [main], however it ends, the label cache only
    grows (every stored server list is kept as a prefix and stays
    non-empty) and the history of queries is only extended. *)
Theorem main_resolver_state_grows udp fuel names p :
  match main udp fuel names p with
  | Returns _ p' | Raises _ p' =>
      cache_le (dict_cache (resolver p)) (dict_cache (resolver p'))
      ∧ (cache_nonempty (dict_cache (resolver p)) →
         cache_nonempty (dict_cache (resolver p')))
      ∧ ∃ more, sent (resolver p') = sent (resolver p) ++ more
  | Diverges => True
  end.
Proof.
  rewrite main_unfold.
  apply (serve_all_state_le udp fuel (dedup_args names []) p).
Qed.

Lemma main_resolver_state_grows_witness :
  match main referral_udp 2 ["example.com"] initial_process with
  | Returns _ p' | Raises _ p' => cache_nonempty (dict_cache (resolver p'))
  | Diverges => True
  end.
Proof.
  pose proof (main_resolver_state_grows referral_udp 2 ["example.com"]
                initial_process) as H.
  destruct (main referral_udp 2 ["example.com"] initial_process);
    [| |exact I]; apply H; intros k l; simpl; rewrite lookup_empty;
    discriminate.
Defined.
